(** * jsondiscrim: discriminated unions decoded from JSON

    A shallow embedding of the Go package [jsondiscrim] (files
    [discrim.go], the [Const] marker and the older, fallback-less
    [Structs]) together with the properties its specification states.

    - Go's [reflect] types are an inductive type [rtype]; a value of an
      interface type is [iface]: the nil interface, or a dynamic type
      with a value.
    - Go maps are stdpp [gmap]s; the order in which [range] visits a map
      is not fixed by the language and is a parameter ([MapRange]).
    - [panic] is a result of its own ([Panic]), apart from returned
      [error]s.
    - The memo of [Const.Value] ([constByType]) is threaded through the
      construction code as explicit state (monad [M]).
    - The external JSON codec ([json], [jsontext]) is an interface
      ([Codec]); a small instance of it ([Mini]) runs the examples. *)

From Stdlib Require Import Ascii String ZArith DecimalString.
From stdpp Require Import gmap strings list fin_maps sorting.

Local Open Scope string_scope.
Set Warnings "-clear-no-such-hyp".

(** ** Reflection: kinds, types, struct fields *)

Inductive Kind :=
  | Bool | Int | Float64 | String_ | Pointer | Struct | Interface
  | Slice | Map.

Global Instance Kind_eq_dec : EqDecision Kind.
Proof. solve_decision. Defined.

Definition Kind_code (k : Kind) : nat :=
  match k with
  | Bool => 0 | Int => 1 | Float64 => 2 | String_ => 3 | Pointer => 4
  | Struct => 5 | Interface => 6 | Slice => 7 | Map => 8
  end.

Definition Kind_of_code (n : nat) : Kind :=
  match n with
  | 0 => Bool | 1 => Int | 2 => Float64 | 3 => String_ | 4 => Pointer
  | 5 => Struct | 6 => Interface | 7 => Slice | _ => Map
  end.

Global Instance Kind_countable : Countable Kind.
Proof.
  apply (inj_countable' Kind_code Kind_of_code). by intros [].
Defined.

(** A type that is not composite: a predeclared type ([string], [int],
    [float64], [bool]) or a defined type over one of them
    ([type Colour string]).  Two such types are identical when they have
    the same name. *)
Record BasicType := { bt_name : string; bt_kind : Kind }.

Global Instance BasicType_eq_dec : EqDecision BasicType.
Proof. solve_decision. Defined.

Global Instance BasicType_countable : Countable BasicType.
Proof.
  apply (inj_countable' (λ b, (bt_name b, bt_kind b))
                        (λ p, {| bt_name := p.1; bt_kind := p.2 |})).
  by intros [].
Defined.

Definition t_string : BasicType := {| bt_name := "string"; bt_kind := String_ |}.
Definition t_int : BasicType := {| bt_name := "int"; bt_kind := Int |}.
Definition t_bool : BasicType := {| bt_name := "bool"; bt_kind := Bool |}.
Definition t_float64 : BasicType := {| bt_name := "float64"; bt_kind := Float64 |}.

(** [reflect.StructField], as far as the package reads it.  [Tag] is the
    struct tag as its key/value pairs. *)
Record StructField_ (ty : Type) := {
  Name : string;
  PkgPath : string;
  Tag : list (string * string);
  Type_ : ty;
}.
Arguments Name {ty} _.
Arguments PkgPath {ty} _.
Arguments Tag {ty} _.
Arguments Type_ {ty} _.

(** [reflect.Type].  [TStruct] lists the fields as [reflect.VisibleFields]
    and [Field] return them; [TConst T S] is the instantiation
    [Const[T, S]] of the marker type. *)
#[warnings="-register-all"]
Inductive rtype :=
  | TBasic (b : BasicType)
  | TPointer (elem : rtype)
  | TStruct (name : string) (fields : list (StructField_ rtype))
  | TInterface (name : string)
  | TConst (T : BasicType) (S : rtype).

Abbreviation StructField := (StructField_ rtype).

Definition rtype_Kind (t : rtype) : Kind :=
  match t with
  | TBasic b => bt_kind b
  | TPointer _ => Pointer
  | TStruct _ _ => Struct
  | TInterface _ => Interface
  | TConst _ _ => Struct
  end.

Definition rtype_eq_dec : ∀ a b : rtype, {a = b} + {a ≠ b}.
Proof.
  fix IH 1. intros a b.
  destruct a as [x|x|n fs|n|T S], b as [y|y|m gs|m|T' S'];
    try (right; discriminate).
  - destruct (decide (x = y)) as [->|Hne]; [by left | right; congruence].
  - destruct (IH x y) as [->|Hne]; [by left | right; congruence].
  - destruct (decide (n = m)) as [->|Hne]; [|right; congruence].
    assert ({fs = gs} + {fs ≠ gs}) as [->|Hne]; [|by left|right; congruence].
    revert gs. induction fs as [|f fs IHfs]; intros [|g gs];
      try (right; discriminate); [by left|].
    destruct f as [fn fp ft fty], g as [gn gp gt gty].
    destruct (decide (fn = gn)) as [->|Hne]; [|right; congruence].
    destruct (decide (fp = gp)) as [->|Hne]; [|right; congruence].
    destruct (decide (ft = gt)) as [->|Hne]; [|right; congruence].
    destruct (IH fty gty) as [->|Hne]; [|right; congruence].
    destruct (IHfs gs) as [->|Hne]; [by left | right; congruence].
  - destruct (decide (n = m)) as [->|Hne]; [by left | right; congruence].
  - destruct (decide (T = T')) as [->|Hne]; [|right; congruence].
    destruct (IH S S') as [->|Hne]; [by left | right; congruence].
Defined.

Global Instance rtype_eq_decision : EqDecision rtype := rtype_eq_dec.

(** [t.Elem()]: defined on pointers; on a struct, basic or interface type
    [reflect] panics. *)
Definition rtype_Elem (t : rtype) : option rtype :=
  match t with
  | TPointer e => Some e
  | _ => None
  end.

(** [reflect.VisibleFields(t)], also [t.NumField()] and [t.Field(i)]: the
    fields of a struct type.  A [Const[T, S]] is a struct without
    fields. *)
Definition VisibleFields (t : rtype) : list StructField :=
  match t with
  | TStruct _ fields => fields
  | _ => []
  end.

(** [f.Tag.Lookup(key)] and [f.Tag.Get(key)]. *)
Fixpoint Tag_Lookup (tag : list (string * string)) (key : string) : option string :=
  match tag with
  | [] => None
  | (k, v) :: rest => if decide (k = key) then Some v else Tag_Lookup rest key
  end.

Definition Tag_Get (tag : list (string * string)) (key : string) : string :=
  default "" (Tag_Lookup tag key).

(** [strings.Cut(s, ",")], its first result: the text before the first
    comma, all of [s] when there is none. *)
Fixpoint cut_comma (s : string) : string :=
  match s with
  | EmptyString => EmptyString
  | String c rest =>
      if decide (c = ","%char) then EmptyString else String c (cut_comma rest)
  end.

(** ** Values *)

(** The value of a basic type.  A [float64] is only ever compared here,
    never computed with: it is represented by an integer code that the
    codec chooses, equal codes for floats that are [==]. *)
Inductive payload :=
  | PStr (s : string)
  | PInt (z : Z)
  | PBool (b : bool)
  | PFloat (f : Z).

Global Instance payload_eq_dec : EqDecision payload.
Proof. solve_decision. Defined.

Global Instance payload_countable : Countable payload.
Proof.
  apply (inj_countable'
    (λ p, match p with
          | PStr s => inl (inl s) | PInt z => inl (inr z)
          | PBool b => inr (inl b) | PFloat f => inr (inr f)
          end)
    (λ e, match e with
          | inl (inl s) => PStr s | inl (inr z) => PInt z
          | inr (inl b) => PBool b | inr (inr f) => PFloat f
          end)).
  by intros [].
Defined.

(** A value of a basic type boxed in an interface ([any]): its dynamic
    type and its value.  Two boxed values are [==] when both agree. *)
Record anyval := { av_type : BasicType; av_val : payload }.

Global Instance anyval_eq_dec : EqDecision anyval.
Proof. solve_decision. Defined.

Global Instance anyval_countable : Countable anyval.
Proof.
  apply (inj_countable' (λ v, (av_type v, av_val v))
                        (λ p, {| av_type := p.1; av_val := p.2 |})).
  by intros [].
Defined.

(** What [json.UnmarshalDecode(d, &v)] stores in [v any]: nil for
    [null], a boxed [bool], [float64] or [string], or a [[]any] or
    [map[string]any] ([AComposite Slice], [AComposite Map]), which cannot
    be hashed. *)
Inductive anyv :=
  | ANil
  | AVal (v : anyval)
  | AComposite (k : Kind).

Global Instance anyv_eq_dec : EqDecision anyv.
Proof. solve_decision. Defined.

(** ** Panics and results *)

Inductive runtime_error :=
  | NilDereference
  | ElemOfInvalidType (t : rtype)
  | UnhashableKey (k : Kind).

Inductive panic :=
  | PanicNotInterface (t : rtype)
  | PanicNoChoices
  | PanicNilArgument (i : nat) (T : rtype)
  | PanicAmbiguous (discrimField fieldName : string)
  | PanicCannotDetermine (possibles : list string)
  | PanicNotStruct (t0 : rtype)
  | PanicMultipleFields (name : string) (t0 : rtype)
  | PanicConstNotStruct
  | PanicConstFieldType (detail : option (rtype * rtype))
  | PanicConstNoTag
  | PanicConstMalformedTag (jsonVal : string)
  | PanicRuntime (e : runtime_error).

(** What a call comes to: it returns, it panics, or the bound that the
    model puts on a loop was reached ([OutOfFuel]). *)
Inductive result (A : Type) :=
  | Ok (a : A)
  | Panic (p : panic)
  | OutOfFuel.
Arguments Ok {A} _.
Arguments Panic {A} _.
Arguments OutOfFuel {A}.

(** ** Tokens of [jsontext] *)

Inductive Token :=
  | TokNull | TokFalse | TokTrue
  | TokString (s : string)
  | TokNumber (lit : string)
  | TokBeginObject | TokEndObject
  | TokBeginArray | TokEndArray.

Global Instance Token_eq_dec : EqDecision Token.
Proof. solve_decision. Defined.

Definition dquote : ascii := "034"%char.

(** [tok.Kind()]: a byte, as in [jsontext.Kind]. *)
Definition Token_Kind (tok : Token) : ascii :=
  match tok with
  | TokNull => "n" | TokFalse => "f" | TokTrue => "t"
  | TokString _ => dquote
  | TokNumber _ => "0"
  | TokBeginObject => "{" | TokEndObject => "}"
  | TokBeginArray => "[" | TokEndArray => "]"
  end%char.

(** [tok.String()]. *)
Definition Token_String (tok : Token) : string :=
  match tok with
  | TokNull => "null" | TokFalse => "false" | TokTrue => "true"
  | TokString s => s
  | TokNumber lit => lit
  | TokBeginObject => "{" | TokEndObject => "}"
  | TokBeginArray => "[" | TokEndArray => "]"
  end.

(** ** The external codec

    [json] and [jsontext] of go-json-experiment are not part of the
    package; the package only calls them.  [Obj] is the contents of a Go
    value that the codec populates, [Decoder] the state of a
    [*jsontext.Decoder], and [CodecError] the errors the codec returns.
    Operations on a decoder return its next state. *)
Class CodecTypes := {
  CodecError : Type;
  Options : Type;
  Obj : Type;
  Decoder : Type;
}.

Class Codec {CT : CodecTypes} := {
  (** [jsontext.NewDecoder(bytes.NewBuffer(data))] *)
  NewDecoder : string → Decoder;
  (** [d.ReadToken()] *)
  ReadToken : Decoder → (CodecError + Token) * Decoder;
  (** [d.SkipValue()] *)
  SkipValue : Decoder → option CodecError * Decoder;
  (** [d.ReadValue()] *)
  ReadValue : Decoder → (CodecError + string) * Decoder;
  (** [d.Options()] *)
  Decoder_Options : Decoder → Options;
  (** [json.UnmarshalDecode(d, &v)] for [var v any] *)
  UnmarshalDecode_any : Decoder → (CodecError + anyv) * Decoder;
  (** [json.UnmarshalDecode(d, p)] for [p] a pointer to a zero value of
      type [t]: the error and what [p] points to afterwards *)
  UnmarshalDecode : Decoder → rtype → (option CodecError * Obj) * Decoder;
  (** [json.Unmarshal(raw, p, opts)] for [p] a pointer to a zero value of
      type [t]: the error and what [p] points to afterwards *)
  Unmarshal : string → rtype → Options → option CodecError * Obj;
  (** [json.Unmarshal(data, &got)] for [var got T], [T] a basic type *)
  Unmarshal_basic : string → BasicType → CodecError + payload;
  (** [json.Marshal(v)], [v] of a basic type *)
  Marshal_basic : anyval → CodecError + string;
  (** [json.Marshal(p)] for [p] a pointer to a value of type [t] with
      contents [o] *)
  Marshal : rtype → Obj → CodecError + string;
}.

(** ** The iteration order of [range] over a map

    Go leaves the order open; [range_ m] is one order of the entries of
    [m]. *)
Class MapRange := {
  range_ : ∀ {V : Type}, gmap string V → list (string * V);
  range_perm : ∀ (V : Type) (m : gmap string V), range_ m ≡ₚ map_to_list m;
}.

(** ** [Const]: a constant as a type *)

(** [constInfo[T]]; [info_T] is the type argument, by which a
    [*constInfo[T]] stored as [any] is told from a [*constInfo[T']]. *)
Record constInfo := {
  info_T : BasicType;
  valueType : rtype;
  value : payload;
}.

(** [constByType]: the [sync.Map] from [typeCmp[S]{}] to [*constInfo]. *)
Definition cache := list (rtype * constInfo).

Fixpoint cache_Load (c : cache) (S : rtype) : option constInfo :=
  match c with
  | [] => None
  | (S', info) :: rest => if decide (S' = S) then Some info else cache_Load rest S
  end.

Definition cache_LoadOrStore (c : cache) (S : rtype) (info : constInfo) : cache :=
  match cache_Load c S with
  | Some _ => c
  | None => (S, info) :: c
  end.

(** Code that reads and fills the memo and may panic. *)
Definition M (A : Type) : Type := cache → result A * cache.

Global Instance M_ret : MRet M := λ A a c, (Ok a, c).
Global Instance M_bind : MBind M := λ A B k m c,
  match m c with
  | (Ok a, c') => k a c'
  | (Panic p, c') => (Panic p, c')
  | (OutOfFuel, c') => (OutOfFuel, c')
  end.
Definition raise {A} (p : panic) : M A := λ c, (Panic p, c).

Section Const.
Context {CT : CodecTypes} {CD : Codec}.

(** [Const[T, S].makeConstInfo] *)
Definition makeConstInfo (T : BasicType) (S : rtype) : result constInfo :=
  if decide (rtype_Kind S ≠ Struct) then Panic PanicConstNotStruct else
  match VisibleFields S with
  | [f0] =>
      if decide (Type_ f0 ≠ TBasic T) then Panic (PanicConstFieldType None) else
      match Tag_Lookup (Tag f0) "const" with
      | None => Panic PanicConstNoTag
      | Some jsonVal =>
          if decide (bt_kind T = String_) then
            Ok {| info_T := T; valueType := TBasic T; value := PStr jsonVal |}
          else
            match Unmarshal_basic jsonVal T with
            | inl _ => Panic (PanicConstMalformedTag jsonVal)
            | inr constVal =>
                Ok {| info_T := T; valueType := TBasic T; value := constVal |}
            end
      end
  | _ => Panic PanicConstNotStruct
  end.

(** [Const[T, S].Value]: a miss stores the info and calls [Value]
    again; [fuel] bounds the calls ([None] when it runs out). *)
Fixpoint Value_rec (fuel : nat) (T : BasicType) (S : rtype) (c : cache)
  : result payload * cache :=
  match fuel with
  | O => (OutOfFuel, c)
  | Datatypes.S fuel' =>
      match cache_Load c S with
      | None =>
          match makeConstInfo T S with
          | Ok info => Value_rec fuel' T S (cache_LoadOrStore c S info)
          | Panic p => (Panic p, c)
          | OutOfFuel => (OutOfFuel, c)
          end
      | Some info0 =>
          if decide (info_T info0 = T) then (Ok (value info0), c)
          else (Panic (PanicConstFieldType
                         (Some (valueType info0, TBasic T))), c)
      end
  end.

(** Two calls are enough: the second finds what the first stored
    ([Value_rec_fuel] below). *)
Definition Value (T : BasicType) (S : rtype) : M payload :=
  Value_rec 2 T S.

(** [Const[T, S].constValue]: [Value()] boxed as [any]. *)
Definition constValue (T : BasicType) (S : rtype) : M anyval :=
  val ← Value T S; mret {| av_type := T; av_val := val |}.
End Const.

(** ** Errors that a decode returns *)

Inductive error {CT : CodecTypes} :=
  | ErrCodec (e : CodecError)
  | ErrExpectedObject (k : ascii)
  | ErrFieldNotFound (fieldName : string)
  | ErrUnexpectedToken (tok : Token)
  | ErrUnknownDiscriminator (discrimValue : anyv) (valid : gset anyval)
  | ErrConstMismatch (got want : payload).

Section ConstJSON.
Context {CT : CodecTypes} {CD : Codec}.

(** [Const[T, S].MarshalJSON] *)
Definition MarshalJSON (T : BasicType) (S : rtype) : M (CodecError + string) :=
  val ← Value T S;
  mret (Marshal_basic {| av_type := T; av_val := val |}).

(** [Const[T, S].UnmarshalJSON] (pointer receiver); [None] is the nil
    error. *)
Definition UnmarshalJSON (T : BasicType) (S : rtype) (data : string)
  : M (option error) :=
  val ← Value T S;
  match Unmarshal_basic data T with
  | inl err => mret (Some (ErrCodec err))
  | inr got =>
      if decide (got ≠ val) then mret (Some (ErrConstMismatch got val))
      else mret None
  end.
End ConstJSON.

(** ** Values of the union type [T] *)

(** What an interface value holds: a nil pointer, a pointer to a value
    with contents [o], or such a value itself. *)
Inductive gval {CT : CodecTypes} :=
  | GNilPtr
  | GPtr (o : Obj)
  | GVal (o : Obj).

(** A value of an interface type: [None] is the nil interface. *)
Definition iface {CT : CodecTypes} : Type := option (rtype * gval).

(** The destination [*src] of a decode, with the number of assignments
    made to it. *)
Record slot {CT : CodecTypes} := { slot_val : iface; slot_writes : nat }.

Definition assign {CT : CodecTypes} (src : slot) (v : iface) : slot :=
  {| slot_val := v; slot_writes := S (slot_writes src) |}.

(** Bytewise order on strings, that of Go's [<=]. *)
Definition String_le (a b : string) : Prop := String.leb a b = true.

Global Instance String_le_dec : RelDecision String_le.
Proof. intros a b. unfold String_le. apply _. Defined.

(** ** Inference of the discriminator ([discrim.go]) *)

(** The decode routine that [StructsWithFallback] returns, as the
    variables its closure captures: the first closure (no discriminator,
    decode straight into the fallback) or the second one. *)
Inductive Unmarshalers {CT : CodecTypes} :=
  | UnmarshalFallback (fallback : iface)
  | UnmarshalDiscrim (hasFallback : bool) (fallback : iface)
      (discrimField : string) (discrimByValue : gmap anyval iface).

Section Discrim.
Context {CT : CodecTypes} {CD : Codec} {MR : MapRange}.

(** [reflect.TypeOf(x)]: nil for the nil interface. *)
Definition reflect_TypeOf (x : iface) : option rtype := fst <$> x.

(** [isNil(x)], for [x] of an interface type: whether the interface
    itself is nil. *)
Definition isNil (x : iface) : bool :=
  match x with
  | None => true
  | Some _ => false
  end.

(** [jsonFieldName] *)
Definition jsonFieldName (f : StructField) : string :=
  let name := Name f in
  let tag := Tag_Get (Tag f) "json" in
  if decide (tag ≠ "") then
    let jsonName := cut_comma tag in
    if decide (jsonName ≠ "") then jsonName else name
  else name.

(** [reflect.Zero(ft).Interface().(interface{ constValue() any })]: the
    method [constValue] of the zero value of [ft], when [ft] has one.
    [Const[T, S]] has it, and so has a pointer to it, whose zero value
    is a nil pointer that the call dereferences. *)
Definition constValue_method (ft : rtype) : option (M anyval) :=
  match ft with
  | TConst T S_ => Some (constValue T S_)
  | TPointer (TConst _ _) => Some (raise (PanicRuntime NilDereference))
  | _ => None
  end.

(** The loop of [constFields] over the visible fields. *)
Fixpoint constFields_loop (t0 : rtype) (fs : list StructField)
    (fields : gmap string anyval) : M (gmap string anyval) :=
  match fs with
  | [] => mret fields
  | f :: rest =>
      if decide (PkgPath f ≠ "") then constFields_loop t0 rest fields else
      match constValue_method (Type_ f) with
      | None => constFields_loop t0 rest fields
      | Some fv =>
          let name := jsonFieldName f in
          if decide (is_Some (fields !! name)) then
            raise (PanicMultipleFields name t0)
          else
            v ← fv;
            constFields_loop t0 rest (<[name := v]> fields)
      end
  end.

(** [constFields]; a nil [reflect.Type] makes [t.Kind()] dereference
    nil. *)
Definition constFields (t0 : option rtype) : M (gmap string anyval) :=
  match t0 with
  | None => raise (PanicRuntime NilDereference)
  | Some t0 =>
      let t :=
        if decide (rtype_Kind t0 = Pointer) then default t0 (rtype_Elem t0)
        else t0 in
      if decide (rtype_Kind t ≠ Struct) then raise (PanicNotStruct t0)
      else constFields_loop t0 (VisibleFields t) ∅
  end.

(** The body of the loop over [constFields(...)], for the entries in the
    order [range] gives them: [byValue[v] = choice] under
    [discrims[fieldName]], made first when it is nil. *)
Definition add_fields (choice : iface)
    (discrims : gmap string (gmap anyval iface))
    (entries : list (string * anyval)) : gmap string (gmap anyval iface) :=
  foldl (λ discrims e,
           let byValue := default ∅ (discrims !! e.1) in
           <[e.1 := <[e.2 := choice]> byValue]> discrims)
        discrims entries.

(** The first loop of [determineDiscriminator]; [i] is the index of the
    next choice. *)
Fixpoint choices_loop (T : rtype) (i : nat) (choices : list iface)
    (discrims : gmap string (gmap anyval iface))
  : M (gmap string (gmap anyval iface)) :=
  match choices with
  | [] => mret discrims
  | choice :: rest =>
      if isNil choice then raise (PanicNilArgument i T) else
      fields ← constFields (reflect_TypeOf choice);
      choices_loop T (S i) rest (add_fields choice discrims (range_ fields))
  end.

(** The second loop: over [discrims], keeping the field whose map is as
    large as the list of choices. *)
Fixpoint select_loop (n : nat) (entries : list (string * gmap anyval iface))
    (discrimField : string) (discrimByValue : gmap anyval iface)
  : result (string * gmap anyval iface) :=
  match entries with
  | [] => Ok (discrimField, discrimByValue)
  | (fieldName, byValue) :: rest =>
      if decide (size byValue ≠ n) then
        select_loop n rest discrimField discrimByValue
      else if decide (discrimField ≠ "") then
        Panic (PanicAmbiguous discrimField fieldName)
      else select_loop n rest fieldName byValue
  end.

(** [slices.Sorted(maps.Keys(discrims))] *)
Definition sorted_keys (discrims : gmap string (gmap anyval iface))
  : list string :=
  merge_sort String_le (range_ discrims).*1.

(** [determineDiscriminator] *)
Definition determineDiscriminator (T : rtype) (choices : list iface)
  : M (string * gmap anyval iface) :=
  discrims ← choices_loop T 0 choices ∅;
  match select_loop (length choices) (range_ discrims) "" ∅ with
  | Ok (discrimField, discrimByValue) =>
      if decide (discrimField = "") then
        raise (PanicCannotDetermine (sorted_keys discrims))
      else mret (discrimField, discrimByValue)
  | Panic p => raise p
  | OutOfFuel => λ c, (OutOfFuel, c)
  end.

(** [StructsWithFallback] *)
Definition StructsWithFallback (T : rtype) (fallback : iface)
    (choices : list iface) : M Unmarshalers :=
  if decide (rtype_Kind T ≠ Interface) then raise (PanicNotInterface T) else
  let hasFallback := negb (isNil fallback) in
  if bool_decide (length choices = 0) && negb hasFallback then
    raise PanicNoChoices
  else
    d ← (if decide (0 < length choices) then determineDiscriminator T choices
         else mret ("", ∅));
    if decide (d.1 = "") then mret (UnmarshalFallback fallback)
    else mret (UnmarshalDiscrim hasFallback fallback d.1 d.2).

(** [Structs]: the fallback [*new(T)] is the zero value of the interface
    type [T], the nil interface. *)
Definition Structs (T : rtype) (choices : list iface) : M Unmarshalers :=
  StructsWithFallback T None choices.
End Discrim.

(** ** Decoding through the dispatcher *)

Section Decode.
Context {CT : CodecTypes} {CD : Codec}.

(** The loop of [fieldValue]; each round reads a token, so the length of
    the data bounds the rounds. *)
Fixpoint fieldValue_loop (fuel : nat) (d : Decoder) (fieldName : string)
  : result (error + anyv) :=
  match fuel with
  | O => OutOfFuel
  | S fuel' =>
      match ReadToken d with
      | (inl err, _) => Ok (inl (ErrCodec err))
      | (inr tok, d) =>
          if decide (Token_Kind tok = "}"%char) then
            Ok (inl (ErrFieldNotFound fieldName))
          else if decide (Token_Kind tok ≠ dquote) then
            Ok (inl (ErrUnexpectedToken tok))
          else if decide (Token_String tok ≠ fieldName) then
            match SkipValue d with
            | (Some err, _) => Ok (inl (ErrCodec err))
            | (None, d) => fieldValue_loop fuel' d fieldName
            end
          else
            match UnmarshalDecode_any d with
            | (inl err, _) => Ok (inl (ErrCodec err))
            | (inr v, _) => Ok (inr v)
            end
      end
  end.

(** [fieldValue] *)
Definition fieldValue (data : string) (fieldName : string)
  : result (error + anyv) :=
  let d := NewDecoder data in
  match ReadToken d with
  | (inl err, _) => Ok (inl (ErrCodec err))
  | (inr tok, d) =>
      if decide (Token_Kind tok ≠ "{"%char) then
        Ok (inl (ErrExpectedObject (Token_Kind tok)))
      else fieldValue_loop (S (String.length data)) d fieldName
  end.

(** [discrimByValue[discrimValue]] for a key of type [any]: a key that
    is a slice or a map cannot be hashed and the index expression
    panics.  No key of the table is the nil interface: the keys are
    constants of basic types. *)
Definition map_index (discrimByValue : gmap anyval iface) (discrimValue : anyv)
  : result (option iface) :=
  match discrimValue with
  | AVal v => Ok (discrimByValue !! v)
  | ANil => Ok None
  | AComposite k => Panic (PanicRuntime (UnhashableKey k))
  end.

(** [reflect.New(reflect.TypeOf(zero).Elem())]: the type that the fresh
    pointer points to. *)
Definition fresh_Elem (zero : iface) : result rtype :=
  match reflect_TypeOf zero with
  | None => Panic (PanicRuntime NilDereference)
  | Some t =>
      match rtype_Elem t with
      | None => Panic (PanicRuntime (ElemOfInvalidType t))
      | Some e => Ok e
      end
  end.

(** What one call of the decode routine comes to: the returned error
    ([None] for nil) or a panic, the decoder and the destination
    afterwards. *)
Record outcome := {
  out_res : result (option error);
  out_dec : Decoder;
  out_src : slot;
}.

(** The tail that both closures share in the second one's form: make
    [zero] a fresh instance, decode all of [raw] into it, assign. *)
Definition decode_into (zero : iface) (raw : string) (d : Decoder)
    (src : slot) : outcome :=
  match fresh_Elem zero with
  | Ok e =>
      match Unmarshal raw e (Decoder_Options d) with
      | (Some err, _) =>
          {| out_res := Ok (Some (ErrCodec err)); out_dec := d; out_src := src |}
      | (None, o) =>
          {| out_res := Ok None; out_dec := d;
             out_src := assign src (Some (TPointer e, GPtr o)) |}
      end
  | Panic p => {| out_res := Panic p; out_dec := d; out_src := src |}
  | OutOfFuel => {| out_res := OutOfFuel; out_dec := d; out_src := src |}
  end.

(** The first closure of [StructsWithFallback]: no discriminator. *)
Definition unmarshal_fallback (fallback : iface) (d : Decoder) (src : slot)
  : outcome :=
  let zero := fallback in
  match fresh_Elem zero with
  | Ok e =>
      match UnmarshalDecode d e with
      | ((Some err, _), d) =>
          {| out_res := Ok (Some (ErrCodec err)); out_dec := d; out_src := src |}
      | ((None, o), d) =>
          {| out_res := Ok None; out_dec := d;
             out_src := assign src (Some (TPointer e, GPtr o)) |}
      end
  | Panic p => {| out_res := Panic p; out_dec := d; out_src := src |}
  | OutOfFuel => {| out_res := OutOfFuel; out_dec := d; out_src := src |}
  end.

(** The second closure of [StructsWithFallback]. *)
Definition unmarshal_discrim (hasFallback : bool) (fallback : iface)
    (discrimField : string) (discrimByValue : gmap anyval iface)
    (d : Decoder) (src : slot) : outcome :=
  match ReadValue d with
  | (inl err, d) =>
      {| out_res := Ok (Some (ErrCodec err)); out_dec := d; out_src := src |}
  | (inr raw, d) =>
      let stop r := {| out_res := r; out_dec := d; out_src := src |} in
      let finish (known : option iface) :=
        let zero := match known with
                    | Some zero => zero
                    | None => fallback
                    end in
        decode_into zero raw d src in
      if decide (discrimField ≠ "") then
        match fieldValue raw discrimField with
        | Ok (inl err) =>
            if negb hasFallback then stop (Ok (Some err)) else finish None
        | Ok (inr discrimValue) =>
            match map_index discrimByValue discrimValue with
            | Ok (Some zero) => finish (Some zero)
            | Ok None =>
                if negb hasFallback then
                  stop (Ok (Some (ErrUnknownDiscriminator discrimValue
                                    (dom discrimByValue))))
                else finish None
            | Panic p => stop (Panic p)
            | OutOfFuel => stop OutOfFuel
            end
        | Panic p => stop (Panic p)
        | OutOfFuel => stop OutOfFuel
        end
      else finish None
  end.

(** Calling the decode routine. *)
Definition unmarshal (u : Unmarshalers) (d : Decoder) (src : slot) : outcome :=
  match u with
  | UnmarshalFallback fallback => unmarshal_fallback fallback d src
  | UnmarshalDiscrim hasFallback fallback discrimField discrimByValue =>
      unmarshal_discrim hasFallback fallback discrimField discrimByValue d src
  end.
End Decode.

(** ** The earlier [Structs], without a fallback *)

Module Old.
Section Old.
Context {CT : CodecTypes} {CD : Codec} {MR : MapRange}.

(** The loop of the earlier [constFields], which computes the JSON name
    in place. *)
Fixpoint constFields_loop (t0 : rtype) (fs : list StructField)
    (fields : gmap string anyval) : M (gmap string anyval) :=
  match fs with
  | [] => mret fields
  | f :: rest =>
      if decide (PkgPath f ≠ "") then constFields_loop t0 rest fields else
      match constValue_method (Type_ f) with
      | None => constFields_loop t0 rest fields
      | Some fv =>
          let name := Name f in
          let tag := Tag_Get (Tag f) "json" in
          let name :=
            if decide (tag ≠ "") then
              let jsonName := cut_comma tag in
              if decide (jsonName ≠ "") then jsonName else name
            else name in
          if decide (is_Some (fields !! name)) then
            raise (PanicMultipleFields name t0)
          else
            v ← fv;
            constFields_loop t0 rest (<[name := v]> fields)
      end
  end.

Definition constFields (t0 : option rtype) : M (gmap string anyval) :=
  match t0 with
  | None => raise (PanicRuntime NilDereference)
  | Some t0 =>
      let t :=
        if decide (rtype_Kind t0 = Pointer) then default t0 (rtype_Elem t0)
        else t0 in
      if decide (rtype_Kind t ≠ Struct) then raise (PanicNotStruct t0)
      else constFields_loop t0 (VisibleFields t) ∅
  end.

(** The first loop of the earlier [Structs]: no check for nil. *)
Fixpoint choices_loop (choices : list iface)
    (discrims : gmap string (gmap anyval iface))
  : M (gmap string (gmap anyval iface)) :=
  match choices with
  | [] => mret discrims
  | choice :: rest =>
      fields ← constFields (reflect_TypeOf choice);
      choices_loop rest (add_fields choice discrims (range_ fields))
  end.

(** The decode routine of the earlier [Structs]; its [fieldValue] is
    the same text as today's. *)
Definition unmarshal (discrimField : string)
    (discrimByValue : gmap anyval iface) (d : Decoder) (src : slot) : outcome :=
  match ReadValue d with
  | (inl err, d) =>
      {| out_res := Ok (Some (ErrCodec err)); out_dec := d; out_src := src |}
  | (inr raw, d) =>
      let stop r := {| out_res := r; out_dec := d; out_src := src |} in
      match fieldValue raw discrimField with
      | Ok (inl err) => stop (Ok (Some err))
      | Ok (inr discrimValue) =>
          match map_index discrimByValue discrimValue with
          | Ok (Some zero) => decode_into zero raw d src
          | Ok None =>
              stop (Ok (Some (ErrUnknownDiscriminator discrimValue
                                (dom discrimByValue))))
          | Panic p => stop (Panic p)
          | OutOfFuel => stop OutOfFuel
          end
      | Panic p => stop (Panic p)
      | OutOfFuel => stop OutOfFuel
      end
  end.

(** The earlier [Structs]: the discriminator field and its table, which
    the returned closure captures. *)
Definition Structs (T : rtype) (choices : list iface)
  : M (string * gmap anyval iface) :=
  if decide (length choices = 0) then raise PanicNoChoices else
  discrims ← choices_loop choices ∅;
  match select_loop (length choices) (range_ discrims) "" ∅ with
  | Ok (discrimField, discrimByValue) =>
      if decide (discrimField = "") then
        raise (PanicCannotDetermine (sorted_keys discrims))
      else mret (discrimField, discrimByValue)
  | Panic p => raise p
  | OutOfFuel => λ c, (OutOfFuel, c)
  end.
End Old.
End Old.

(** ** A small codec

    An instance of [Codec] over JSON text without escapes in strings and
    with integer numbers, to run the package on inputs: tokens are read
    off the front of the remaining text, the contents of a struct are the
    members of the object it was decoded from, each with the text of its
    value. *)
Module Mini.

Definition is_sep (c : ascii) : bool :=
  bool_decide (c = " "%char ∨ c = ","%char ∨ c = ":"%char ∨ c = "010"%char).

Definition is_digit (c : ascii) : bool :=
  let n := nat_of_ascii c in bool_decide (48 ≤ n ≤ 57)%nat.

Fixpoint skip_sep (s : string) : string :=
  match s with
  | String c rest => if is_sep c then skip_sep rest else s
  | EmptyString => s
  end.

(** The text up to the closing quote, and what follows the quote. *)
Fixpoint span_string (s : string) : option (string * string) :=
  match s with
  | EmptyString => None
  | String c rest =>
      if decide (c = dquote) then Some (EmptyString, rest)
      else '(body, after) ← span_string rest; Some (String c body, after)
  end.

Fixpoint span_digits (s : string) : string * string :=
  match s with
  | String c rest =>
      if is_digit c then
        let '(ds, after) := span_digits rest in (String c ds, after)
      else (EmptyString, s)
  | EmptyString => (EmptyString, s)
  end.

Fixpoint drop_chars (n : nat) (s : string) : string :=
  match n, s with
  | S n', String _ rest => drop_chars n' rest
  | _, _ => s
  end.

Definition read_token (s : string) : option (Token * string) :=
  match skip_sep s with
  | EmptyString => None
  | String c rest =>
      if decide (c = dquote) then
        '(body, after) ← span_string rest; Some (TokString body, after)
      else if decide (c = "{"%char) then Some (TokBeginObject, rest)
      else if decide (c = "}"%char) then Some (TokEndObject, rest)
      else if decide (c = "["%char) then Some (TokBeginArray, rest)
      else if decide (c = "]"%char) then Some (TokEndArray, rest)
      else if is_digit c then
        let '(ds, after) := span_digits rest in
        Some (TokNumber (String c ds), after)
      else if String.prefix "true" (String c rest) then
        Some (TokTrue, drop_chars 3 rest)
      else if String.prefix "false" (String c rest) then
        Some (TokFalse, drop_chars 4 rest)
      else if String.prefix "null" (String c rest) then
        Some (TokNull, drop_chars 3 rest)
      else None
  end.

(** Skip tokens until the value that starts at [s] is complete;
    [depth] counts the open brackets. *)
Fixpoint skip_value (fuel : nat) (depth : nat) (s : string) : option string :=
  match fuel with
  | O => None
  | S fuel' =>
      '(tok, rest) ← read_token s;
      match tok with
      | TokBeginObject | TokBeginArray => skip_value fuel' (S depth) rest
      | TokEndObject | TokEndArray =>
          match depth with
          | O => None
          | 1 => Some rest
          | S depth' => skip_value fuel' depth' rest
          end
      | _ => if decide (depth = 0) then Some rest else skip_value fuel' depth rest
      end
  end.

Definition take_chars (n : nat) (s : string) : string := String.substring 0 n s.

Definition read_value (s : string) : option (string * string) :=
  let s := skip_sep s in
  rest ← skip_value (S (String.length s)) 0 s;
  Some (take_chars (String.length s - String.length rest) s, rest).

Fixpoint Z_of_digits (acc : Z) (s : string) : Z :=
  match s with
  | EmptyString => acc
  | String c rest => Z_of_digits (10 * acc + (Z.of_nat (nat_of_ascii c) - 48)) rest
  end.

Definition decode_any (s : string) : (string + anyv) * string :=
  match read_token s with
  | None => (inl "syntax error", s)
  | Some (tok, rest) =>
      match tok with
      | TokNull => (inr ANil, rest)
      | TokFalse => (inr (AVal {| av_type := t_bool; av_val := PBool false |}), rest)
      | TokTrue => (inr (AVal {| av_type := t_bool; av_val := PBool true |}), rest)
      | TokString body =>
          (inr (AVal {| av_type := t_string; av_val := PStr body |}), rest)
      | TokNumber lit =>
          (inr (AVal {| av_type := t_float64; av_val := PFloat (Z_of_digits 0 lit) |}),
           rest)
      | TokBeginObject =>
          match read_value s with
          | Some (_, rest) => (inr (AComposite Map), rest)
          | None => (inl "syntax error", s)
          end
      | TokBeginArray =>
          match read_value s with
          | Some (_, rest) => (inr (AComposite Slice), rest)
          | None => (inl "syntax error", s)
          end
      | _ => (inl "unexpected token", s)
      end
  end.

(** The members of an object, after its opening brace. *)
Fixpoint members (fuel : nat) (s : string) : option (list (string * string)) :=
  match fuel with
  | O => None
  | S fuel' =>
      '(tok, rest) ← read_token s;
      match tok with
      | TokEndObject => Some []
      | TokString name =>
          '(raw, rest) ← read_value rest;
          ms ← members fuel' rest;
          Some ((name, raw) :: ms)
      | _ => None
      end
  end.

Definition unmarshal_struct (raw : string) : option string * list (string * string) :=
  match read_token raw with
  | Some (TokBeginObject, rest) =>
      match members (S (String.length raw)) rest with
      | Some ms => (None, ms)
      | None => (Some "syntax error", [])
      end
  | Some (TokNull, _) => (None, [])
  | _ => (Some "cannot unmarshal into a struct", [])
  end.

Definition unmarshal_basic (data : string) (T : BasicType) : string + payload :=
  match read_token data, bt_kind T with
  | Some (TokString body, _), String_ => inr (PStr body)
  | Some (TokNumber lit, _), Int => inr (PInt (Z_of_digits 0 lit))
  | Some (TokNumber lit, _), Float64 => inr (PFloat (Z_of_digits 0 lit))
  | Some (TokTrue, _), Bool => inr (PBool true)
  | Some (TokFalse, _), Bool => inr (PBool false)
  | _, _ => inl "cannot unmarshal"
  end.

Definition quoted (s : string) : string :=
  String dquote (s ++ String dquote EmptyString).

Definition marshal_basic (v : anyval) : string + string :=
  match av_val v with
  | PStr s => inr (quoted s)
  | PBool true => inr "true"
  | PBool false => inr "false"
  | PInt z | PFloat z =>
      if decide (0 ≤ z)%Z then
        inr (DecimalString.NilZero.string_of_uint (N.to_uint (Z.to_N z)))
      else inl "cannot marshal"
  end.

Fixpoint marshal_members (ms : list (string * string)) : string :=
  match ms with
  | [] => ""
  | [(name, raw)] => quoted name ++ ":" ++ raw
  | (name, raw) :: rest => quoted name ++ ":" ++ raw ++ "," ++ marshal_members rest
  end.

Global Instance types : CodecTypes := {|
  CodecError := string;
  Options := unit;
  Obj := list (string * string);
  Decoder := string;
|}.

Global Instance codec : Codec := {|
  NewDecoder data := data;
  ReadToken d :=
    match read_token d with
    | Some (tok, d') => (inr tok, d')
    | None => (inl "syntax error", d)
    end;
  SkipValue d :=
    match read_value d with
    | Some (_, d') => (None, d')
    | None => (Some "syntax error", d)
    end;
  ReadValue d :=
    match read_value d with
    | Some (raw, d') => (inr raw, d')
    | None => (inl "syntax error", d)
    end;
  Decoder_Options _ := tt;
  UnmarshalDecode_any := decode_any;
  UnmarshalDecode d _ :=
    match read_value d with
    | Some (raw, d') => (unmarshal_struct raw, d')
    | None => ((Some "syntax error", []), d)
    end;
  Unmarshal raw _ _ := unmarshal_struct raw;
  Unmarshal_basic := unmarshal_basic;
  Marshal_basic := marshal_basic;
  Marshal _ o := inr ("{" ++ marshal_members o ++ "}");
|}.

(** One order of iteration: that of [map_to_list]. *)
Global Program Instance map_range : MapRange := {|
  range_ V m := map_to_list m;
|}.
Next Obligation. reflexivity. Qed.

End Mini.

(** ** Types and values of the package's tests *)

Module Examples.
Import Mini.

(** The struct with one embedded field of type [T], not exported, whose
    tag gives [lit] under the key const. *)
Definition constS (T : BasicType) (lit : string) : rtype :=
  TStruct "" [ {| Name := bt_name T; PkgPath := "jsondiscrim";
                  Tag := [("const", lit)]; Type_ := TBasic T |} ].

Definition ConstFoo : rtype := TConst t_string (constS t_string "foo").
Definition ConstBar : rtype := TConst t_string (constS t_string "bar").
Definition Const42 : rtype := TConst t_int (constS t_int "42").
Definition ConstTrue : rtype := TConst t_bool (constS t_bool "true").

Definition field (name : string) (tag : list (string * string)) (t : rtype)
  : StructField :=
  {| Name := name; PkgPath := ""; Tag := tag; Type_ := t |}.

Definition Animal : rtype := TInterface "Animal".
Definition Dog : rtype :=
  TStruct "Dog" [field "Type" [] ConstFoo; field "Bark" [] (TBasic t_string)].
Definition Cat : rtype :=
  TStruct "Cat" [field "Type" [] ConstBar; field "Meow" [] (TBasic t_string)].
Definition OtherAnimal : rtype :=
  TStruct "OtherAnimal"
    [field "Type" [] (TBasic t_string);
     field "OtherFields" [("json", ",unknown")] (TBasic t_string)].

(** A nil pointer to [X] boxed in the interface, the way the tests pass
    their choices. *)
Definition nil_of (X : rtype) : iface := Some (TPointer X, GNilPtr).

Definition NoDiscrim1 : rtype := TStruct "NoDiscrim1" [field "Field1" [] (TBasic t_string)].
Definition NoDiscrim2 : rtype := TStruct "NoDiscrim2" [field "Field2" [] (TBasic t_int)].

Definition Ambig1 : rtype :=
  TStruct "Ambig1" [field "Field1" [] ConstFoo; field "Field2" [] ConstBar].
Definition Ambig2 : rtype :=
  TStruct "Ambig2" [field "Field1" [] ConstBar; field "Field2" [] ConstFoo].

(** Two shapes told apart by a constant of type [int]. *)
Definition Level : rtype := TInterface "Level".
Definition Const1 : rtype := TConst t_int (constS t_int "1").
Definition Const2 : rtype := TConst t_int (constS t_int "2").
Definition Low : rtype :=
  TStruct "Low" [field "Level" [] Const1; field "Note" [] (TBasic t_string)].
Definition High : rtype :=
  TStruct "High" [field "Level" [] Const2; field "Note" [] (TBasic t_string)].

(** JSON text: [obj [(k1, v1); ...]] is the object with these members. *)
Definition obj (ms : list (string * string)) : string :=
  "{" ++ marshal_members ms ++ "}".

Definition empty_slot : slot := {| slot_val := None; slot_writes := 0 |}.

(** The dispatcher of [Structs[Animal]] over [Dog] and [Cat], and that of
    [StructsWithFallback[Animal]] with [OtherAnimal] as the fallback. *)
Definition animals : result Unmarshalers * cache :=
  Structs Animal [nil_of Dog; nil_of Cat] [].
Definition animals_fb : result Unmarshalers * cache :=
  StructsWithFallback Animal (nil_of OtherAnimal) [nil_of Dog; nil_of Cat] [].

(** Shapes with wire names given by tags, as in the tests. *)
Definition Book : rtype :=
  TStruct "Book" [field "Type" [("json", "type")] ConstFoo;
                  field "Title" [("json", "title,omitempty")] (TBasic t_string)].
Definition Movie : rtype :=
  TStruct "Movie" [field "Type" [("json", "type")] ConstBar;
                   field "Title" [("json", "title")] (TBasic t_string)].

(** Two constants under one wire name. *)
Definition DuplicateJSON : rtype :=
  TStruct "DuplicateJSON" [field "Field1" [("json", "same")] ConstFoo;
                           field "Field2" [("json", "same")] ConstBar].

(** A candidate passed as a struct value, not as a pointer. *)
Definition value_of (X : rtype) : iface := Some (X, GVal []).

(** The dispatcher that a construction returned. *)
Definition the (u : result Unmarshalers * cache) : Unmarshalers :=
  match u.1 with
  | Ok u => u
  | _ => UnmarshalFallback None
  end.

(** The dispatcher of [Structs[Level]] over [Low] and [High], and the
    contents of a [Low] with the note x. *)
Definition levels : result Unmarshalers * cache :=
  Structs Level [nil_of Low; nil_of High] [].
Definition low_x : Obj := [("Level", "1"); ("Note", quoted "x")].

(** Decoding [data] through the dispatcher [u], when it was built. *)
Definition decode (u : result Unmarshalers * cache) (data : string)
  : option outcome :=
  match u.1 with
  | Ok u => Some (unmarshal u (NewDecoder data) empty_slot)
  | _ => None
  end.
End Examples.

(** ** Notions used to state the properties *)

Section Notions.
Context {CT : CodecTypes} {CD : Codec}.

(** The constant that [Const[T, S]] stands for, read off [S] without
    the memo. *)
Definition constant (T : BasicType) (S : rtype) : result payload :=
  match makeConstInfo T S with
  | Ok info => Ok (value info)
  | Panic p => Panic p
  | OutOfFuel => OutOfFuel
  end.

(** The memo holds, under [S], what [makeConstInfo] computes for [S];
    the empty memo of a fresh process does. *)
Definition cache_ok (c : cache) : Prop :=
  ∀ S info, cache_Load c S = Some info → makeConstInfo (info_T info) S = Ok info.

(** The struct type that [constFields] looks at: the type itself, or what
    it points to. *)
Definition struct_type (t0 : rtype) : rtype :=
  if decide (rtype_Kind t0 = Pointer) then default t0 (rtype_Elem t0) else t0.

(** The wire name and the constant of a field that is exported and of a
    [Const] type whose constant can be read. *)
Definition const_entry (f : StructField) : option (string * anyval) :=
  if decide (PkgPath f ≠ "") then None else
  match Type_ f with
  | TConst T S_ =>
      match constant T S_ with
      | Ok v => Some (jsonFieldName f, {| av_type := T; av_val := v |})
      | _ => None
      end
  | _ => None
  end.

(** The constant-bearing fields of a shape, in the order of its fields. *)
Definition wire_consts (t0 : rtype) : list (string * anyval) :=
  omap const_entry (VisibleFields (struct_type t0)).

(** A field over which [constFields] does not panic: every exported
    field of a [Const] type has a constant that can be read, and none is
    a pointer to a [Const]. *)
Definition field_ok (f : StructField) : bool :=
  if decide (PkgPath f ≠ "") then true else
  match Type_ f with
  | TConst T S_ => match constant T S_ with Ok _ => true | _ => false end
  | TPointer (TConst _ _) => false
  | _ => true
  end.

(** A shape that [constFields] accepts: a struct or a pointer to one,
    fields as above, no wire name on two constant-bearing fields. *)
Definition shape_ok (t0 : rtype) : Prop :=
  rtype_Kind (struct_type t0) = Struct
  ∧ Forall (λ f, field_ok f = true) (VisibleFields (struct_type t0))
  ∧ NoDup (wire_consts t0).*1.

(** A candidate: a value in the interface (a nil pointer will do) whose
    type is such a shape. *)
Definition choice_ok (ch : iface) : Prop :=
  ∃ t g, ch = Some (t, g) ∧ shape_ok t.

(** The candidate [ch] has a constant-bearing field with wire name [name]
    and constant [v]. *)
Definition carries (ch : iface) (name : string) (v : anyval) : Prop :=
  ∃ t g, ch = Some (t, g) ∧ (name, v) ∈ wire_consts t.

(** The wire name [name] is constant-bearing in every candidate, with
    constants that differ from one candidate to the next. *)
Definition qualifies (choices : list iface) (name : string) : Prop :=
  ∃ vs, Forall2 (λ ch v, carries ch name v) choices vs ∧ NoDup vs.

(** The constant of [ch] under [name], if it has one. *)
Definition value_at (name : string) (ch : iface) : option anyval :=
  t ← reflect_TypeOf ch;
  (list_to_map (wire_consts t) : gmap string anyval) !! name.

(** The table that the candidates build under [name], from left to
    right; [None] while no candidate has the name. *)
Definition tbl_step (name : string) (acc : option (gmap anyval iface))
    (ch : iface) : option (gmap anyval iface) :=
  match value_at name ch with
  | Some v => Some (<[v := ch]> (default ∅ acc))
  | None => acc
  end.

Definition tbl (name : string) (choices : list iface)
  : option (gmap anyval iface) :=
  foldl (tbl_step name) None choices.

(** The nil pointer of the type of [ch], boxed in the interface. *)
Definition typed_nil (ch : iface) : iface :=
  match ch with
  | Some (t, _) => Some (t, GNilPtr)
  | None => None
  end.

(** What [lookupJSONField] comes to: [reflect.VisibleFields] panics on a
    type that is not a struct; else the type found, nil ([None]) when no
    field has the name. *)
Inductive lookup_result :=
  | LookupPanics (t : rtype)
  | LookupType (ty : option rtype).

(** The loop of [lookupJSONField]. *)
Fixpoint lookupJSONField_loop (fs : list StructField) (jsonName : string)
  : option rtype :=
  match fs with
  | [] => None
  | f :: rest =>
      if decide (PkgPath f ≠ "") then lookupJSONField_loop rest jsonName
      else if decide (jsonFieldName f = jsonName) then Some (Type_ f)
      else lookupJSONField_loop rest jsonName
  end.

(** [lookupJSONField] *)
Definition lookupJSONField (t : rtype) (jsonName : string) : lookup_result :=
  if decide (rtype_Kind t ≠ Struct) then LookupPanics t
  else LookupType (lookupJSONField_loop (VisibleFields t) jsonName).

(** [constInfo.getValueType] *)
Definition getValueType (c : constInfo) : rtype := valueType c.

(** The decoder stands before members with the names [names], in this
    order, each with a value that [SkipValue] skips; the decoder after
    them. *)
Fixpoint skip_members (names : list string) (d : Decoder) : option Decoder :=
  match names with
  | [] => Some d
  | name :: rest =>
      match ReadToken d with
      | (inr tok, d1) =>
          if decide (tok = TokString name) then
            match SkipValue d1 with
            | (None, d2) => skip_members rest d2
            | (Some _, _) => None
            end
          else None
      | (inl _, _) => None
      end
  end.

(** A string without a comma. *)
Fixpoint comma_free (s : string) : Prop :=
  match s with
  | EmptyString => True
  | String c rest => c ≠ ","%char ∧ comma_free rest
  end.
End Notions.

(** Another order of iteration: that of [map_to_list] backwards. *)
Definition reverse_range : MapRange := {|
  range_ V m := reverse (map_to_list m);
  range_perm V m := reverse_Permutation (map_to_list m);
|}.

(** A shape with a field that is a pointer to a constant marker. *)
Definition WithPointer : rtype :=
  TStruct "WithPointer"
    [Examples.field "Kind" [] Examples.ConstBar;
     Examples.field "Type" [] (TPointer Examples.ConstFoo)].

(** * Properties *)

(** ** The constant marker *)

Section ConstFacts.
Context {CT : CodecTypes} {CD : Codec}.

Lemma cache_ok_nil : cache_ok [].
Proof. intros S info; discriminate. Qed.

Lemma makeConstInfo_T T S info :
  makeConstInfo T S = Ok info → info_T info = T.
Proof.
  unfold makeConstInfo. intros Hm.
  repeat (case_decide || case_match); simplify_eq; done.
Qed.

Lemma cache_Load_store c S info :
  cache_Load c S = None →
  cache_Load (cache_LoadOrStore c S info) S = Some info.
Proof.
  intros Hm. unfold cache_LoadOrStore. rewrite Hm. simpl.
  by rewrite decide_True.
Qed.

Lemma cache_ok_store c T S info :
  cache_ok c → makeConstInfo T S = Ok info →
  cache_ok (cache_LoadOrStore c S info).
Proof.
  intros Hc Hm S' info'. unfold cache_LoadOrStore.
  destruct (cache_Load c S) eqn:Hl; [apply Hc|].
  simpl. case_decide as Heq; [|apply Hc].
  intros [= <-]. subst S'. by rewrite (makeConstInfo_T _ _ _ Hm).
Qed.

(** The recursion of [Value] ends at the second call, whatever bound is
    given beyond that. *)
Lemma Value_rec_fuel n T S c :
  Value_rec (Datatypes.S (Datatypes.S n)) T S c = Value_rec 2 T S c
  ∧ (Value_rec 2 T S c).1 ≠ OutOfFuel.
Proof.
  simpl. destruct (cache_Load c S) eqn:Hl.
  - case_decide; done.
  - destruct (makeConstInfo T S) as [info|p|] eqn:Hm; [|done|].
    + rewrite (cache_Load_store _ _ info Hl).
      destruct n; simpl; rewrite ?(cache_Load_store _ _ info Hl);
        case_decide; done.
    + exfalso. unfold makeConstInfo in Hm.
      repeat (case_decide || case_match); simplify_eq.
Qed.

(** With a memo that holds what [makeConstInfo] computes, [Value]
    returns the constant read off [S], and panics when reading it off
    panics. *)
Lemma Value_constant T S c :
  cache_ok c →
  ∃ c', cache_ok c' ∧
    match constant T S with
    | Ok v => Value T S c = (Ok v, c')
    | Panic p =>
        c' = c ∧
        (Value T S c = (Panic p, c)
         ∨ p = PanicConstFieldType None
           ∧ ∃ detail, Value T S c = (Panic (PanicConstFieldType (Some detail)), c))
    | OutOfFuel => False
    end.
Proof.
  intros Hc. unfold constant, Value. simpl.
  destruct (cache_Load c S) as [info0|] eqn:Hl.
  - pose proof (Hc _ _ Hl) as Hm0.
    case_decide as HT.
    + subst T. rewrite Hm0. by exists c.
    + exists c. split; [done|].
      assert (∃ p, makeConstInfo T S = Panic p ∧ p = PanicConstFieldType None)
        as (p & -> & ->).
      { revert Hm0. unfold makeConstInfo.
        repeat (case_decide || case_match); intros; simplify_eq; eauto;
          simpl in *; congruence. }
      split; [done|]. right. split; [done|]. eauto.
  - destruct (makeConstInfo T S) as [info|p|] eqn:Hm.
    + exists (cache_LoadOrStore c S info). split; [by eapply cache_ok_store|].
      rewrite (cache_Load_store _ _ info Hl).
      by rewrite (makeConstInfo_T _ _ _ Hm), decide_True.
    + exists c. eauto.
    + exfalso. unfold makeConstInfo in Hm.
      repeat (case_decide || case_match); simplify_eq.
Qed.

Lemma Value_ok T S c v :
  cache_ok c → constant T S = Ok v →
  ∃ c', Value T S c = (Ok v, c') ∧ cache_ok c'.
Proof.
  intros Hc Hv. destruct (Value_constant T S c Hc) as (c' & Hc' & HV).
  rewrite Hv in HV. eauto.
Qed.
End ConstFacts.

Section ConstClaims.
Context {CT : CodecTypes} {CD : Codec}.

(** C8.  [Const[T, S].Value()] reads the constant off the single field
    of the struct [S]: for [T] of kind string the literal of the const
    tag as it is, for any other [T] the literal decoded by the codec.
    An [S] that is not a struct or has not exactly one field, a field
    whose type is not [T], a field without the const tag and a literal
    that the codec does not decode as [T] each make the call panic; no
    error is returned (the result is a value or a panic).  The memo is
    any that holds what [makeConstInfo] computes, the empty one of a
    fresh process among them, and stays such. *)
Theorem Value_extracts_constant T S c :
  cache_ok c →
  (rtype_Kind S ≠ Struct → Value T S c = (Panic PanicConstNotStruct, c)) ∧
  (length (VisibleFields S) ≠ 1 → Value T S c = (Panic PanicConstNotStruct, c)) ∧
  (∀ f0, rtype_Kind S = Struct → VisibleFields S = [f0] →
     (Type_ f0 ≠ TBasic T →
        ∃ detail, Value T S c = (Panic (PanicConstFieldType detail), c)) ∧
     (Type_ f0 = TBasic T → Tag_Lookup (Tag f0) "const" = None →
        Value T S c = (Panic PanicConstNoTag, c)) ∧
     (∀ jsonVal,
        Type_ f0 = TBasic T → Tag_Lookup (Tag f0) "const" = Some jsonVal →
        (bt_kind T = String_ →
           ∃ c', Value T S c = (Ok (PStr jsonVal), c') ∧ cache_ok c') ∧
        (bt_kind T ≠ String_ → ∀ v, Unmarshal_basic jsonVal T = inr v →
           ∃ c', Value T S c = (Ok v, c') ∧ cache_ok c') ∧
        (bt_kind T ≠ String_ → ∀ e, Unmarshal_basic jsonVal T = inl e →
           Value T S c = (Panic (PanicConstMalformedTag jsonVal), c)))).
Proof.
  intros Hc.
  destruct (Value_constant T S c Hc) as (c' & Hc' & HV).
  unfold constant, makeConstInfo in HV.
  split; [|split].
  - intros HS. rewrite decide_True in HV by done.
    destruct HV as (_ & [HV|(? & _)]); done.
  - intros Hlen. case_decide.
    + destruct HV as (_ & [HV|(? & _)]); done.
    + destruct (VisibleFields S) as [|f0 [|f1 fs]]; simpl in *; try done;
        destruct HV as (_ & [HV|(? & _)]); done.
  - intros f0 HS Hf. rewrite decide_False in HV by (by intros []).
    rewrite Hf in HV. split; [|split].
    + intros Hty. rewrite decide_True in HV by done.
      destruct HV as (_ & [HV|(_ & d & HV)]); eauto.
    + intros Hty Htag. rewrite decide_False in HV by (by intros []).
      rewrite Htag in HV. destruct HV as (_ & [HV|(? & _)]); done.
    + intros jsonVal Hty Htag. rewrite decide_False in HV by (by intros []).
      rewrite Htag in HV. split; [|split].
      * intros Hk. rewrite decide_True in HV by done. simpl in HV. eauto.
      * intros Hk v Hv. rewrite decide_False, Hv in HV by done.
        simpl in HV. eauto.
      * intros Hk e He. rewrite decide_False, He in HV by done.
        destruct HV as (_ & [HV|(? & _)]); done.
Qed.

(** C6.  [UnmarshalJSON] of a [Const[T, S]] returns the nil error
    exactly when the codec decodes the bytes to a value of type [T]
    that equals the marker's [Value()]; when the decoded value differs,
    the error returned carries the decoded and the expected value; an
    error of the codec is returned as it is. *)
Theorem UnmarshalJSON_checks_constant T S data c :
  ((UnmarshalJSON T S data c).1 = Ok None ↔
     ∃ got, Unmarshal_basic data T = inr got ∧ (Value T S c).1 = Ok got) ∧
  (∀ got val,
     Unmarshal_basic data T = inr got → (Value T S c).1 = Ok val → got ≠ val →
     (UnmarshalJSON T S data c).1 = Ok (Some (ErrConstMismatch got val))) ∧
  (∀ err val,
     Unmarshal_basic data T = inl err → (Value T S c).1 = Ok val →
     (UnmarshalJSON T S data c).1 = Ok (Some (ErrCodec err))).
Proof.
  unfold UnmarshalJSON, mbind, M_bind, mret, M_ret.
  destruct (Value T S c) as [[val|p|] c'] eqn:HV; simpl.
  - destruct (Unmarshal_basic data T) as [err|got] eqn:Hd; simpl.
    + split; [|split].
      * split; [done|]. by intros (got & [=] & _).
      * by intros got val' [=].
      * by intros err' val' [= <-] _.
    + split; [|split].
      * case_decide as Hne; simpl; split.
        -- done.
        -- intros (got' & [= <-] & [= <-]). done.
        -- intros _. exists got. split; [done|]. f_equal.
           destruct (decide (got = val)); [done|]. by destruct Hne.
        -- done.
      * intros got' val' [= <-] [= <-] Hne. by rewrite decide_True.
      * by intros err val' [=].
  - split; [|split].
    + split; [done|]. by intros (got & _ & [=]).
    + by intros got val _ [=].
    + by intros err val _ [=].
  - split; [|split].
    + split; [done|]. by intros (got & _ & [=]).
    + by intros got val _ [=].
    + by intros err val _ [=].
Qed.
End ConstClaims.

Lemma Value_extracts_constant_witness :
  cache_ok (CD:=Mini.codec) []
  ∧ ∃ c', Value (CD:=Mini.codec) t_string (Examples.constS t_string "foo") []
            = (Ok (PStr "foo"), c')
          ∧ cache_ok (CD:=Mini.codec) c'.
Proof.
  split; [apply cache_ok_nil|].
  destruct (Value_extracts_constant (CD:=Mini.codec) t_string
              (Examples.constS t_string "foo") [] cache_ok_nil) as (_ & _ & H3).
  destruct (H3 _ eq_refl eq_refl) as (_ & _ & H4).
  destruct (H4 "foo" eq_refl eq_refl) as (H5 & _).
  apply H5. reflexivity.
Defined.

(** ** The decode routine *)

Section DecodeFacts.
Context {CT : CodecTypes} {CD : Codec} {MR : MapRange}.

(** What [determineDiscriminator] returns has a field name that is not
    empty. *)
Lemma determineDiscriminator_nonempty T choices c f tbl c' :
  determineDiscriminator T choices c = (Ok (f, tbl), c') → f ≠ "".
Proof.
  unfold determineDiscriminator, mbind, M_bind, mret, M_ret, raise.
  destruct (choices_loop T 0 choices ∅ c) as [[discrims|p|] c1]; [|done..].
  destruct (select_loop _ _ _ _) as [[f' tbl']|p|]; [|done..].
  case_decide; [done|]. by intros [= <- <- <-].
Qed.

(** The two modes of the routine that [StructsWithFallback] returns: no
    choices and a fallback, or some choices and a discriminator. *)
Lemma StructsWithFallback_mode T fallback choices c u c' :
  StructsWithFallback T fallback choices c = (Ok u, c') →
  rtype_Kind T = Interface ∧
  ((choices = [] ∧ isNil fallback = false ∧ c' = c
    ∧ u = UnmarshalFallback fallback)
   ∨ (choices ≠ [] ∧ ∃ f tbl,
        f ≠ "" ∧ determineDiscriminator T choices c = (Ok (f, tbl), c')
        ∧ u = UnmarshalDiscrim (negb (isNil fallback)) fallback f tbl)).
Proof.
  unfold StructsWithFallback, mbind, M_bind, mret, M_ret, raise.
  case_decide as HT; [done|]. intros Hs.
  split; [by destruct (decide (rtype_Kind T = Interface))|].
  destruct choices as [|ch choices]; simpl in Hs.
  - destruct (isNil fallback); simpl in Hs; [done|].
    injection Hs as <- <-. by left.
  - right. split; [done|].
    destruct (determineDiscriminator T (ch :: choices) c)
      as [[[f tbl]|p|] c1] eqn:Hd; [|done..].
    pose proof (determineDiscriminator_nonempty _ _ _ _ _ _ Hd) as Hf.
    simpl in Hs. rewrite decide_False in Hs by done.
    injection Hs as <- <-. eauto.
Qed.

(** With candidates, construction is the inference, whatever the
    fallback. *)
Lemma StructsWithFallback_choices T fallback choices c :
  rtype_Kind T = Interface → choices ≠ [] →
  StructsWithFallback T fallback choices c =
    match determineDiscriminator T choices c with
    | (Ok d, c') =>
        (Ok (UnmarshalDiscrim (negb (isNil fallback)) fallback d.1 d.2), c')
    | (Panic p, c') => (Panic p, c')
    | (OutOfFuel, c') => (OutOfFuel, c')
    end.
Proof.
  intros HT Hne.
  unfold StructsWithFallback, mbind, M_bind, mret, M_ret, raise.
  rewrite decide_False by (by rewrite HT; intros []).
  destruct choices as [|ch chs]; [done|]. simpl.
  destruct (determineDiscriminator T (ch :: chs) c)
    as [[[f m]|p|] c'] eqn:Hdet; [|done..].
  simpl. by rewrite decide_False
    by (by eapply determineDiscriminator_nonempty).
Qed.

(** The decode that follows an unknown scalar value of the
    discriminator, or its absence. *)
Lemma unmarshal_discrim_scan_error hasFallback fallback f tbl d src raw d' err :
  f ≠ "" → ReadValue d = (inr raw, d') →
  fieldValue raw f = Ok (inl err) →
  unmarshal_discrim hasFallback fallback f tbl d src =
    if hasFallback then decode_into fallback raw d' src
    else {| out_res := Ok (Some err); out_dec := d'; out_src := src |}.
Proof.
  intros Hf Hr Hv. unfold unmarshal_discrim.
  rewrite Hr, decide_True, Hv by done. by destruct hasFallback.
Qed.


Lemma unmarshal_discrim_known hasFallback fallback f tbl d src raw d' v zero :
  f ≠ "" → ReadValue d = (inr raw, d') →
  fieldValue raw f = Ok (inr v) → map_index tbl v = Ok (Some zero) →
  unmarshal_discrim hasFallback fallback f tbl d src = decode_into zero raw d' src.
Proof.
  intros Hf Hr Hv Hi. unfold unmarshal_discrim.
  by rewrite Hr, decide_True, Hv, Hi by done.
Qed.

(** A discriminator value that is an array or an object cannot be
    looked up: whether or not there is a fallback, the routine panics
    at the index expression. *)
Lemma unmarshal_discrim_unhashable hasFallback fallback f tbl d src raw d' k :
  f ≠ "" → ReadValue d = (inr raw, d') →
  fieldValue raw f = Ok (inr (AComposite k)) →
  unmarshal_discrim hasFallback fallback f tbl d src =
    {| out_res := Panic (PanicRuntime (UnhashableKey k));
       out_dec := d'; out_src := src |}.
Proof.
  intros Hf Hr Hv. unfold unmarshal_discrim.
  by rewrite Hr, decide_True, Hv by done.
Qed.

(** A number decoded into [any] is a [float64]; it is no key of a table
    whose keys are constants of another type, such as [int]. *)
Lemma map_index_other_type (tbl : gmap anyval iface) v :
  (∀ k, k ∈ dom tbl → av_type k ≠ av_type v) →
  map_index tbl (AVal v) = Ok None.
Proof.
  intros Hk. simpl. f_equal. apply not_elem_of_dom. intros Hin.
  by apply (Hk v Hin).
Qed.


(** C3, as the code has it.  In discriminated mode (some choices), when
    the raw value that was read does not start with the token of an
    object: without a fallback the decode returns the expected-object
    error, which is not the field-not-found error, and leaves the
    destination alone; with a fallback the error of the scan is dropped
    and all of the raw value goes to the decoder of the fallback
    shape. *)
Theorem non_object_input T fallback choices c u c' d src raw d' tok d1 :
  choices ≠ [] →
  StructsWithFallback T fallback choices c = (Ok u, c') →
  ReadValue d = (inr raw, d') →
  ReadToken (NewDecoder raw) = (inr tok, d1) →
  Token_Kind tok ≠ "{"%char →
  (∀ fieldName,
     ErrExpectedObject (Token_Kind tok) ≠ ErrFieldNotFound fieldName)
  ∧ (isNil fallback = true →
       unmarshal u d src =
         {| out_res := Ok (Some (ErrExpectedObject (Token_Kind tok)));
            out_dec := d'; out_src := src |})
  ∧ (isNil fallback = false →
       unmarshal u d src = decode_into fallback raw d' src).
Proof.
  intros Hne Hs Hr Ht Hk.
  destruct (StructsWithFallback_mode _ _ _ _ _ _ Hs)
    as (_ & [(-> & _)|(_ & f & tbl & Hf & _ & ->)]); [done|].
  assert (fieldValue raw f = Ok (inl (ErrExpectedObject (Token_Kind tok))))
    as Hv.
  { unfold fieldValue. rewrite Ht. by rewrite decide_True. }
  split; [done|]. simpl.
  split; intros Hnil; rewrite Hnil; simpl;
    by rewrite (unmarshal_discrim_scan_error _ _ _ _ _ _ _ _ _ Hf Hr Hv).
Qed.
End DecodeFacts.

Section DecodeExamples.
Import Mini Examples.

(** C2, on the code.  Two shapes told apart by a constant of type
    [int]: the dispatcher is built, a [Low] marshals to an object whose
    Level is the number 1, and decoding that object through the
    dispatcher returns the unknown-discriminator error instead of the
    [Low]: the scan decodes the number into [any] as a [float64], which
    is not [==] to the [int] key of the table.  The destination is left
    as it was. *)
Theorem int_discriminator_round_trip_fails :
  ∃ data valid,
    levels.1 = Ok (the levels)
    ∧ Marshal Low low_x = inr data
    ∧ (∀ k, k ∈ dom (match the levels with
                     | UnmarshalDiscrim _ _ _ tbl => tbl
                     | _ => ∅
                     end) → av_type k = t_int)
    ∧ let o := unmarshal (the levels) (NewDecoder data) empty_slot in
      out_res o =
        Ok (Some (ErrUnknownDiscriminator
                    (AVal {| av_type := t_float64; av_val := PFloat 1 |}) valid))
      ∧ out_src o = empty_slot.
Proof.
  eexists _, _. split; [by vm_compute|]. split; [reflexivity|].
  split.
  - intros k Hk. apply elem_of_dom in Hk as [ch Hk].
    apply elem_of_map_to_list in Hk. vm_compute in Hk.
    repeat (apply elem_of_cons in Hk as [Hk|Hk]; [by simplify_eq|]).
    by apply elem_of_nil in Hk.
  - split; vm_compute; reflexivity.
Qed.

(** C4, on the code.  A discriminator whose value is an array is no key
    of the table, yet the decode neither returns the
    unknown-discriminator error (no fallback) nor decodes into the
    fallback (with one): the index expression panics, as the key
    cannot be hashed. *)
Theorem composite_discriminator_panics :
  let data := obj [("Type", "[1]")] in
  fieldValue data "Type" = Ok (inr (AComposite Slice))
  ∧ out_res <$> decode animals data
    = Some (Panic (PanicRuntime (UnhashableKey Slice)))
  ∧ out_res <$> decode animals_fb data
    = Some (Panic (PanicRuntime (UnhashableKey Slice))).
Proof. repeat split; vm_compute; reflexivity. Qed.

(** C3 as stated fails: with a fallback, an input that is an array does
    not come back with the expected-object error but with what the
    decoder of the fallback shape says, and the input null is decoded
    without any error. *)
Lemma non_object_with_fallback_counterexample :
  isNil (nil_of OtherAnimal) = false
  ∧ animals_fb.1 = Ok (the animals_fb)
  ∧ (ReadToken (NewDecoder "[1]")).1 = inr TokBeginArray
  ∧ out_res (unmarshal (the animals_fb) (NewDecoder "[1]") empty_slot)
    = Ok (Some (ErrCodec "cannot unmarshal into a struct"))
  ∧ out_res (unmarshal (the animals_fb) (NewDecoder "[1]") empty_slot)
    ≠ Ok (Some (ErrExpectedObject "["%char))
  ∧ (ReadToken (NewDecoder "null")).1 = inr TokNull
  ∧ out_res (unmarshal (the animals_fb) (NewDecoder "null") empty_slot) = Ok None.
Proof. repeat split; by vm_compute. Qed.
End DecodeExamples.

Lemma non_object_input_witness :
  let u := Examples.the Examples.animals_fb in
  unmarshal (CD:=Mini.codec) u (NewDecoder "[1]") Examples.empty_slot
  = decode_into (Examples.nil_of Examples.OtherAnimal) "[1]" "" Examples.empty_slot.
Proof.
  refine (proj2 (proj2 (non_object_input (CD:=Mini.codec) (MR:=Mini.map_range)
    Examples.Animal (Examples.nil_of Examples.OtherAnimal)
    [Examples.nil_of Examples.Dog; Examples.nil_of Examples.Cat] []
    (Examples.the Examples.animals_fb) Examples.animals_fb.2
    "[1]" Examples.empty_slot "[1]" "" TokBeginArray "1]" _ _ _ _ _)) _).
  - done.
  - vm_compute. reflexivity.
  - reflexivity.
  - reflexivity.
  - by vm_compute.
  - reflexivity.
Defined.

(** ** Inference of the discriminator *)

Section InferenceFacts.
Context {CT : CodecTypes} {CD : Codec} {MR : MapRange}.

Lemma range_list_to_map {V} (m : gmap string V) :
  list_to_map (range_ m) = m.
Proof.
  rewrite <- (list_to_map_to_list m) at 2.
  apply list_to_map_proper; [|apply range_perm].
  rewrite range_perm. apply NoDup_fst_map_to_list.
Qed.

Lemma range_NoDup {V} (m : gmap string V) : NoDup (range_ m).*1.
Proof. rewrite range_perm. apply NoDup_fst_map_to_list. Qed.

Lemma elem_of_range {V} (m : gmap string V) k v :
  (k, v) ∈ range_ m ↔ m !! k = Some v.
Proof. rewrite range_perm. apply elem_of_map_to_list. Qed.

(** *** [constFields] *)

Lemma const_entry_method f e :
  field_ok f = true → const_entry f = Some e →
  PkgPath f = "" ∧ ∃ T S_,
    Type_ f = TConst T S_ ∧ e.1 = jsonFieldName f
    ∧ constant T S_ = Ok (av_val e.2) ∧ av_type e.2 = T.
Proof.
  unfold field_ok, const_entry. case_decide as Hp; [done|].
  intros _ He. split; [by destruct (decide (PkgPath f = ""))|].
  destruct (Type_ f) as [| | | |T S_]; try done.
  destruct (constant T S_) as [v| |] eqn:Hv; [|done..].
  injection He as <-. eauto 10.
Qed.

Lemma constFields_loop_spec t0 fs acc c :
  cache_ok c →
  Forall (λ f, field_ok f = true) fs →
  NoDup (omap const_entry fs).*1 →
  (∀ name, name ∈ (omap const_entry fs).*1 → acc !! name = None) →
  ∃ c', constFields_loop t0 fs acc c
        = (Ok (list_to_map (omap const_entry fs) ∪ acc), c')
      ∧ cache_ok c'.
Proof.
  revert acc c. induction fs as [|f fs IH]; intros acc c Hc Hok Hnd Hfresh.
  { exists c. simpl. by rewrite (left_id_L ∅ (∪)). }
  apply Forall_cons in Hok as [Hf Hok].
  assert ((const_entry f = None
           ∧ constFields_loop t0 (f :: fs) acc c = constFields_loop t0 fs acc c)
          ∨ (∃ T S_ v, const_entry f
                         = Some (jsonFieldName f, {| av_type := T; av_val := v |})
               ∧ PkgPath f = "" ∧ Type_ f = TConst T S_ ∧ constant T S_ = Ok v))
    as [[He Hstep]|(T & S_ & v & He & Hp & Hty & Hv)].
  { unfold field_ok in Hf. unfold const_entry. simpl.
    case_decide as Hp; [by left|].
    destruct (Type_ f) as [b|e|n fl|n|T S_] eqn:Hty; simpl; try (by left).
    - destruct e; try done; by left.
    - destruct (constant T S_) as [v| |] eqn:Hv; [|done..].
      right. exists T, S_, v. by destruct (decide (PkgPath f = "")). }
  - rewrite Hstep. cbn [omap list_omap] in *. rewrite He in *.
    by apply IH.
  - cbn [omap list_omap] in *. rewrite He in *. simpl in Hnd, Hfresh.
    apply NoDup_cons in Hnd as [Hnin Hnd].
    simpl. rewrite decide_False by (by rewrite Hp; intros []).
    rewrite Hty. simpl. rewrite decide_False; last first.
    { rewrite (Hfresh (jsonFieldName f)); [by intros []|by left]. }
    unfold constValue, mbind, M_bind, mret, M_ret.
    destruct (Value_ok _ _ _ _ Hc Hv) as (c1 & -> & Hc1).
    destruct (IH (<[jsonFieldName f := {| av_type := T; av_val := v |}]> acc) c1)
      as (c' & -> & Hc'); [done..| |].
    { intros name Hin. rewrite lookup_insert_ne; [|by intros <-].
      apply Hfresh. by right. }
    exists c'. split; [|done]. do 2 f_equal.
    rewrite <- insert_union_l, insert_union_r; [done|].
    by apply not_elem_of_list_to_map_1.
Qed.

Lemma constFields_spec t0 c :
  cache_ok c → shape_ok t0 →
  ∃ c', constFields (Some t0) c = (Ok (list_to_map (wire_consts t0)), c')
      ∧ cache_ok c'.
Proof.
  intros Hc (Hk & Hok & Hnd). unfold constFields. fold (struct_type t0).
  rewrite decide_False by (by intros []).
  destruct (constFields_loop_spec t0 _ ∅ c Hc Hok Hnd) as (c' & -> & Hc').
  { intros; apply lookup_empty. }
  exists c'. by rewrite (right_id_L ∅ (∪)).
Qed.

(** *** The table under construction *)

Lemma add_fields_lookup ch (l : list (string * anyval)) d name :
  NoDup l.*1 →
  add_fields ch d l !! name =
    match (list_to_map l : gmap string anyval) !! name with
    | Some v => Some (<[v := ch]> (default ∅ (d !! name)))
    | None => d !! name
    end.
Proof.
  revert d. induction l as [|[k v] l IH]; intros d Hnd; simpl.
  { by rewrite lookup_empty. }
  apply NoDup_cons in Hnd as [Hnin Hnd]. simpl in Hnin.
  unfold add_fields in *. rewrite IH by done.
  destruct (decide (k = name)) as [->|Hne].
  - rewrite (not_elem_of_list_to_map_1 _ _ Hnin).
    by rewrite !lookup_insert_eq.
  - by rewrite !(lookup_insert_ne _ k name) by done.
Qed.

Lemma choices_loop_cons T i t g rest d :
  choices_loop T i (Some (t, g) :: rest) d =
    (fields ← constFields (Some t);
     choices_loop T (S i) rest (add_fields (Some (t, g)) d (range_ fields))).
Proof. reflexivity. Qed.

Lemma choices_loop_spec T i choices d c :
  cache_ok c → Forall choice_ok choices →
  ∃ d' c', choices_loop T i choices d c = (Ok d', c') ∧ cache_ok c'
    ∧ ∀ name, d' !! name = foldl (tbl_step name) (d !! name) choices.
Proof.
  revert i d c. induction choices as [|ch choices IH]; intros i d c Hc Hok.
  { exists d, c. done. }
  apply Forall_cons in Hok as [(t & g & -> & Hsh) Hok].
  rewrite choices_loop_cons. unfold mbind, M_bind.
  destruct (constFields_spec t c Hc Hsh) as (c1 & -> & Hc1).
  destruct (IH (S i) (add_fields (Some (t, g)) d
                        (range_ (list_to_map (wire_consts t)))) c1 Hc1 Hok)
    as (d' & c' & -> & Hc' & Hd').
  exists d', c'. split; [done|]. split; [done|].
  intros name. rewrite Hd'. cbn [foldl]. f_equal.
  rewrite add_fields_lookup by apply range_NoDup.
  rewrite range_list_to_map. unfold tbl_step, value_at. simpl.
  by destruct (_ !! name).
Qed.
End InferenceFacts.

Section TableFacts.
Context {CT : CodecTypes} {CD : Codec}.

Lemma value_at_carries name ch v :
  value_at name ch = Some v → carries ch name v.
Proof.
  unfold value_at, carries. destruct ch as [[t g]|]; simpl; [|done].
  intros Hl. exists t, g. split; [done|]. by apply elem_of_list_to_map_2.
Qed.

Lemma carries_value_at name ch v :
  choice_ok ch → carries ch name v → value_at name ch = Some v.
Proof.
  intros (t & g & -> & _ & _ & Hnd) (t' & g' & [= <- <-] & Hin).
  unfold value_at. simpl. by apply elem_of_list_to_map_1.
Qed.

Lemma carries_values name choices vs :
  Forall choice_ok choices →
  Forall2 (λ ch v, carries ch name v) choices vs →
  Forall2 (λ ch v, value_at name ch = Some v) choices vs.
Proof.
  intros Hok HF. induction HF as [|ch v chs vs' Hc HF IH]; [constructor|].
  apply Forall_cons in Hok as [Hch Hok].
  constructor; [by apply carries_value_at|by apply IH].
Qed.

Lemma omap_values {A B} (f : A → option B) (l : list A) (k : list B) :
  Forall2 (λ a b, f a = Some b) l k → omap f l = k.
Proof.
  induction 1 as [|a b l k Hf _ IH]; [done|].
  cbn [omap list_omap]. by rewrite Hf, IH.
Qed.

Lemma length_omap_le {A B} (f : A → option B) (l : list A) :
  (length (omap f l) ≤ length l)%nat
  ∧ (length (omap f l) = length l → Forall2 (λ a b, f a = Some b) l (omap f l)).
Proof.
  induction l as [|a l [IH1 IH2]]; [split; [done|constructor]|].
  cbn [omap list_omap]. destruct (f a) eqn:Hf; simpl; split; try lia.
  intros Hl. constructor; [done|]. apply IH2. lia.
Qed.

Lemma size_list_to_set_le (l : list anyval) :
  (size (list_to_set l : gset anyval) ≤ length l)%nat
  ∧ (size (list_to_set l : gset anyval) = length l → NoDup l).
Proof.
  induction l as [|x l [IH1 IH2]].
  { split; [by rewrite list_to_set_nil, size_empty|intros; constructor]. }
  rewrite list_to_set_cons. cbn [length].
  destruct (decide (x ∈ l)) as [Hin|Hnin].
  - assert ({[x]} ∪ list_to_set l = (list_to_set l : gset anyval)) as ->
      by set_solver.
    split; lia.
  - rewrite size_union by set_solver. rewrite size_singleton.
    split; [lia|]. intros Hs. constructor; [done|]. apply IH2. lia.
Qed.

(** The keys of the table under [name] are the constants that the
    candidates have under [name]. *)
Lemma tbl_dom name choices :
  match tbl name choices with
  | None => omap (value_at name) choices = []
  | Some m =>
      dom m = list_to_set (omap (value_at name) choices)
      ∧ omap (value_at name) choices ≠ []
  end.
Proof.
  unfold tbl. induction choices as [|ch chs IH] using rev_ind; [done|].
  rewrite foldl_snoc, omap_app. unfold tbl_step at 1.
  cbn [omap list_omap].
  destruct (value_at name ch) as [v|] eqn:Hv.
  - split; [|by destruct (omap _ chs)].
    rewrite list_to_set_snoc_L, dom_insert_L.
    destruct (foldl _ _ chs) as [m|]; simpl.
    + destruct IH as [-> _]. set_solver.
    + rewrite IH. simpl. rewrite dom_empty_L. set_solver.
  - by rewrite app_nil_r.
Qed.

Lemma tbl_is_Some name choices :
  is_Some (tbl name choices) ↔ ∃ ch v, ch ∈ choices ∧ carries ch name v.
Proof.
  pose proof (tbl_dom name choices) as Hd. split.
  - intros [m Hm]. rewrite Hm in Hd. destruct Hd as [_ Hne].
    destruct (omap (value_at name) choices) as [|v vs] eqn:Ho; [done|].
    assert (v ∈ omap (value_at name) choices) as Hin by (rewrite Ho; by left).
    apply list_elem_of_omap in Hin as (ch & Hin & Hv).
    exists ch, v. split; [done|]. by apply value_at_carries.
  - intros (ch & v & Hin & Hc).
    destruct (tbl name choices) as [m|]; [done|]. exfalso.
    destruct Hc as (t & g & -> & Hc).
    assert (is_Some (value_at name (Some (t, g)))) as [w Hw].
    { unfold value_at. simpl. apply not_eq_None_Some.
      intros Hn. apply not_elem_of_list_to_map in Hn.
      apply Hn. apply list_elem_of_fmap. by exists (name, v). }
    assert (w ∈ omap (value_at name) choices) as Hin'.
    { apply list_elem_of_omap. eauto. }
    rewrite Hd in Hin'. by apply elem_of_nil in Hin'.
Qed.

(** The table under [name] is as large as the list of candidates exactly
    when [name] qualifies. *)
Lemma tbl_qualifies name choices :
  Forall choice_ok choices → choices ≠ [] →
  (∃ m, tbl name choices = Some m ∧ size m = length choices)
  ↔ qualifies choices name.
Proof.
  intros Hok Hne. pose proof (tbl_dom name choices) as Hd.
  destruct (length_omap_le (value_at name) choices) as [Hl1 Hl2].
  destruct (size_list_to_set_le (omap (value_at name) choices)) as [Hs1 Hs2].
  split.
  - intros (m & Hm & Hsz). rewrite Hm in Hd. destruct Hd as [Hdom _].
    rewrite <- size_dom, Hdom in Hsz.
    exists (omap (value_at name) choices). split; [|apply Hs2; lia].
    eapply Forall2_impl; [apply Hl2; lia|].
    intros ch v. apply value_at_carries.
  - intros (vs & HF & Hnd).
    pose proof (Forall2_length _ _ _ HF) as Hlen.
    apply carries_values in HF; [|done]. apply omap_values in HF.
    rewrite HF in *.
    destruct (tbl name choices) as [m|].
    + exists m. split; [done|]. destruct Hd as [Hdom _].
      by rewrite <- size_dom, Hdom, size_list_to_set.
    + subst vs. by destruct choices.
Qed.

Lemma foldl_insert_union (l : list (anyval * iface)) (m0 : gmap anyval iface) :
  NoDup l.*1 →
  foldl (λ m p, <[p.1 := p.2]> m) m0 l = list_to_map l ∪ m0.
Proof.
  revert m0. induction l as [|[k x] l IH]; intros m0 Hnd; simpl.
  { by rewrite (left_id_L ∅ (∪)). }
  apply NoDup_cons in Hnd as [Hnin Hnd]. rewrite IH by done.
  rewrite <- insert_union_l, insert_union_r; [done|].
  by apply not_elem_of_list_to_map_1.
Qed.

Lemma tbl_fold name choices vs acc :
  Forall2 (λ ch v, value_at name ch = Some v) choices vs →
  foldl (tbl_step name) acc choices =
    match choices with
    | [] => acc
    | _ => Some (foldl (λ m p, <[p.1 := p.2]> m) (default ∅ acc) (zip vs choices))
    end.
Proof.
  intros HF. revert acc.
  induction HF as [|ch v chs vs' Hv HF IH]; intros acc; [done|].
  cbn [foldl]. rewrite IH. unfold tbl_step. rewrite Hv.
  destruct HF; done.
Qed.

(** When [name] qualifies with the constants [vs], the table under
    [name] maps each constant to its candidate. *)
Lemma tbl_closed name choices vs :
  Forall choice_ok choices → choices ≠ [] →
  Forall2 (λ ch v, carries ch name v) choices vs → NoDup vs →
  tbl name choices = Some (list_to_map (zip vs choices)).
Proof.
  intros Hok Hne HF Hnd.
  pose proof (Forall2_length _ _ _ HF) as Hlen.
  apply carries_values in HF; [|done].
  unfold tbl. rewrite (tbl_fold _ _ _ _ HF).
  destruct choices as [|ch chs]; [done|].
  change (default ∅ None) with (∅ : gmap anyval iface).
  rewrite foldl_insert_union; [by rewrite (right_id_L ∅ (∪))|].
  rewrite fst_zip by lia. done.
Qed.
End TableFacts.

Section SelectFacts.
Context {CT : CodecTypes}.

Lemma select_loop_filter n (entries : list (string * gmap anyval iface)) df dm :
  select_loop n entries df dm
  = select_loop n (filter (λ e, size e.2 = n) entries) df dm.
Proof.
  revert df dm. induction entries as [|[f m] entries IH]; intros df dm; [done|].
  destruct (decide (size m = n)) as [Hq|Hq].
  - rewrite filter_cons_True by done. simpl.
    repeat case_decide; try congruence; apply IH.
  - rewrite filter_cons_False by done. simpl.
    repeat case_decide; try congruence; apply IH.
Qed.

(** The second loop, by the entries whose map is as large as the list of
    choices: none, one, or a first and a second one. *)
Lemma select_loop_cases n (entries : list (string * gmap anyval iface)) :
  Forall (λ e, e.1 ≠ "") (filter (λ e, size e.2 = n) entries) →
  match filter (λ e, size e.2 = n) entries with
  | [] => select_loop n entries "" ∅ = Ok ("", ∅)
  | [(f, m)] => select_loop n entries "" ∅ = Ok (f, m)
  | (f1, _) :: (f2, _) :: _ =>
      select_loop n entries "" ∅ = Panic (PanicAmbiguous f1 f2)
  end.
Proof.
  intros Hne. rewrite select_loop_filter.
  assert (Forall (λ e, e.1 ≠ "" ∧ size e.2 = n)
            (filter (λ e, size e.2 = n) entries)) as HF.
  { apply Forall_forall. intros e He. split.
    - by apply (proj1 (Forall_forall _ _) Hne).
    - by apply list_elem_of_filter in He as [Hq _]. }
  destruct (filter _ entries) as [|[f1 m1] [|[f2 m2] rest]]; [done| |].
  - apply Forall_cons in HF as [[Hf Hq] _]. simpl in *.
    repeat case_decide; congruence.
  - apply Forall_cons in HF as [[Hf1 Hq1] HF].
    apply Forall_cons in HF as [[Hf2 Hq2] _]. simpl in *.
    repeat case_decide; congruence.
Qed.
End SelectFacts.

Section InferenceClaims.
Context {CT : CodecTypes} {CD : Codec} {MR : MapRange}.

Global Instance String_le_total : Total String_le.
Proof. intros a b. apply String.leb_total. Qed.

Lemma NoDup_all_equal {A} (l : list A) x :
  NoDup l → x ∈ l → (∀ y, y ∈ l → y = x) → l = [x].
Proof.
  intros Hnd Hin Hall. destruct l as [|a [|b l]].
  - by apply elem_of_nil in Hin.
  - f_equal. apply Hall. by left.
  - exfalso. apply NoDup_cons in Hnd as [Hnin _]. apply Hnin.
    rewrite (Hall a), (Hall b); [by left|by right; left|by left].
Qed.

(** The first loop over well-formed candidates: the map it builds, and
    the entries of it that the second loop keeps. *)
Lemma discrims_entries T choices c :
  cache_ok c → Forall choice_ok choices →
  ∃ discrims c1,
    choices_loop T 0 choices ∅ c = (Ok discrims, c1) ∧ cache_ok c1
    ∧ (∀ name, discrims !! name = tbl name choices)
    ∧ NoDup (filter (λ e, size e.2 = length choices) (range_ discrims))
    ∧ (∀ f m, (f, m) ∈ filter (λ e, size e.2 = length choices) (range_ discrims)
              ↔ tbl f choices = Some m ∧ size m = length choices).
Proof.
  intros Hc Hok.
  destruct (choices_loop_spec T 0 choices ∅ c Hc Hok)
    as (discrims & c1 & Hl & Hc1 & Hd).
  exists discrims, c1. split; [done|]. split; [done|].
  assert (∀ name, discrims !! name = tbl name choices) as Hd'.
  { intros name. by rewrite Hd, lookup_empty. }
  split; [done|]. split.
  - apply NoDup_filter. eapply NoDup_fmap_1. apply range_NoDup.
  - intros f m. rewrite list_elem_of_filter, elem_of_range, Hd'. simpl.
    tauto.
Qed.

Lemma determineDiscriminator_unfold T choices c discrims c1 :
  choices_loop T 0 choices ∅ c = (Ok discrims, c1) →
  determineDiscriminator T choices c =
    match select_loop (length choices) (range_ discrims) "" ∅ with
    | Ok (discrimField, discrimByValue) =>
        if decide (discrimField = "") then
          (Panic (PanicCannotDetermine (sorted_keys discrims)), c1)
        else (Ok (discrimField, discrimByValue), c1)
    | Panic p => (Panic p, c1)
    | OutOfFuel => (OutOfFuel, c1)
    end.
Proof.
  intros Hl. unfold determineDiscriminator, mbind, M_bind. rewrite Hl.
  destruct (select_loop _ _ _ _) as [[f m]|p|]; [|done..].
  by case_decide.
Qed.

(** The inference over candidates of which exactly one wire name
    qualifies. *)
Lemma determineDiscriminator_qualifying T choices f vs c :
  cache_ok c → Forall choice_ok choices → f ≠ "" →
  Forall2 (λ ch v, carries ch f v) choices vs → NoDup vs →
  (∀ g, g ≠ f → ¬ qualifies choices g) →
  ∃ c', determineDiscriminator T choices c
        = (Ok (f, list_to_map (zip vs choices)), c')
      ∧ cache_ok c'.
Proof.
  intros Hc Hok Hf HF Hnd Huniq.
  assert (choices ≠ []) as Hne.
  { intros ->. apply (Huniq ""); [done|]. exists []. split; constructor. }
  pose proof (Forall2_length _ _ _ HF) as Hlen.
  assert (NoDup (zip vs choices).*1) as Hndz by (rewrite fst_zip by lia; done).
  pose proof (tbl_closed f choices vs Hok Hne HF Hnd) as Htbl.
  assert (size (list_to_map (zip vs choices) : gmap anyval iface)
          = length choices) as Hsz.
  { rewrite map_size_list_to_map by done.
    rewrite length_zip_with_r_eq; [done|lia]. }
  destruct (discrims_entries T choices c Hc Hok)
    as (discrims & c1 & Hl & Hc1 & Hd & Hndf & Hin).
  assert (filter (λ e, size e.2 = length choices) (range_ discrims)
          = [(f, list_to_map (zip vs choices))]) as Hfilter.
  { apply NoDup_all_equal; [done|by apply Hin|].
    intros [g m] [Hg Hm]%Hin.
    destruct (decide (g = f)) as [->|Hgf]; [congruence|].
    exfalso. apply (Huniq g Hgf). apply tbl_qualifies; eauto. }
  pose proof (select_loop_cases (length choices) (range_ discrims)) as Hsel.
  rewrite Hfilter in Hsel.
  specialize (Hsel ltac:(by repeat constructor)).
  exists c1.
  rewrite (determineDiscriminator_unfold _ _ _ _ _ Hl), Hsel.
  by rewrite decide_False by done.
Qed.


(** C5, as the code has it.  With one or more candidates that
    [constFields] accepts, and whether or not a fallback is supplied:
    when no wire name qualifies, construction panics with the
    cannot-determine message, which lists, sorted, every constant-bearing
    wire name of some candidate; when two or more wire names qualify, it
    panics with the ambiguous message, which names two different
    qualifying wire names.  Only with no candidate at all does a
    fallback let construction go through without a discriminator. *)
Theorem construction_failures T fallback choices c :
  rtype_Kind T = Interface → cache_ok c →
  Forall choice_ok choices → choices ≠ [] →
  (∀ ch v, ch ∈ choices → ¬ carries ch "" v) →
  ((∀ f, ¬ qualifies choices f) →
     ∃ possibles c',
       StructsWithFallback T fallback choices c
         = (Panic (PanicCannotDetermine possibles), c')
       ∧ Sorted String_le possibles ∧ NoDup possibles
       ∧ ∀ name, name ∈ possibles ↔ ∃ ch v, ch ∈ choices ∧ carries ch name v)
  ∧ ((∃ f1 f2, f1 ≠ f2 ∧ qualifies choices f1 ∧ qualifies choices f2) →
     ∃ g1 g2 c',
       StructsWithFallback T fallback choices c
         = (Panic (PanicAmbiguous g1 g2), c')
       ∧ g1 ≠ g2 ∧ qualifies choices g1 ∧ qualifies choices g2)
  ∧ (isNil fallback = false →
     StructsWithFallback T fallback [] c = (Ok (UnmarshalFallback fallback), c)).
Proof.
  intros HT Hc Hok Hne Hnames.
  destruct (discrims_entries T choices c Hc Hok)
    as (discrims & c1 & Hl & Hc1 & Hd & Hndf & Hin).
  pose proof (StructsWithFallback_choices T fallback choices c HT Hne) as HS.
  assert (Forall (λ e, e.1 ≠ "")
            (filter (λ e, size e.2 = length choices) (range_ discrims))) as Hnon.
  { apply Forall_forall. intros [g m] [Hg Hm]%Hin Heq. simpl in Heq. subst g.
    assert (is_Some (tbl "" choices)) as Hs by eauto.
    apply tbl_is_Some in Hs as (ch & v & Hch & Hcar). by eapply Hnames. }
  pose proof (select_loop_cases (length choices) (range_ discrims) Hnon)
    as Hsel.
  split; [|split].
  - intros Hnone.
    assert (filter (λ e, size e.2 = length choices) (range_ discrims) = [])
      as Hfilter.
    { destruct (filter _ _) as [|[g m] rest] eqn:Hfl; [done|]. exfalso.
      assert ((g, m) ∈ (g, m) :: rest) as [Hg Hm]%Hin by left.
      apply (Hnone g). apply tbl_qualifies; eauto. }
    rewrite Hfilter in Hsel.
    exists (sorted_keys discrims), c1.
    rewrite HS, (determineDiscriminator_unfold _ _ _ _ _ Hl), Hsel.
    rewrite decide_True by done. split; [done|].
    unfold sorted_keys. split; [apply Sorted_merge_sort; apply _|].
    split; [rewrite merge_sort_Permutation; apply range_NoDup|].
    intros name. rewrite merge_sort_Permutation, <- tbl_is_Some, <- Hd.
    rewrite list_elem_of_fmap. split.
    + intros ([k m] & -> & Hkm). apply elem_of_range in Hkm. eauto.
    + intros [m Hm]. exists (name, m). split; [done|]. by apply elem_of_range.
  - intros (f1 & f2 & Hf12 & Hq1 & Hq2).
    apply tbl_qualifies in Hq1 as (m1 & Hm1 & Hs1); [|done..].
    apply tbl_qualifies in Hq2 as (m2 & Hm2 & Hs2); [|done..].
    assert ((f1, m1) ∈ filter (λ e, size e.2 = length choices) (range_ discrims))
      as Hin1 by (by apply Hin).
    assert ((f2, m2) ∈ filter (λ e, size e.2 = length choices) (range_ discrims))
      as Hin2 by (by apply Hin).
    destruct (filter _ (range_ discrims)) as [|[g1 n1] [|[g2 n2] rest]] eqn:Hfl.
    + by apply elem_of_nil in Hin1.
    + apply list_elem_of_singleton in Hin1, Hin2. congruence.
    + exists g1, g2, c1.
      rewrite HS, (determineDiscriminator_unfold _ _ _ _ _ Hl), Hsel.
      split; [done|].
      assert ((g1, n1) ∈ (g1, n1) :: (g2, n2) :: rest) as [Hg1 Hn1]%Hin by left.
      assert ((g2, n2) ∈ (g1, n1) :: (g2, n2) :: rest) as [Hg2 Hn2]%Hin
        by (right; left).
      split; [|split; apply tbl_qualifies; eauto].
      intros ->. apply NoDup_cons in Hndf as [Hnin _]. apply Hnin.
      assert (n1 = n2) as -> by congruence. by left.
  - intros Hfb. unfold StructsWithFallback, mbind, M_bind, mret, M_ret, raise.
    rewrite decide_False by (by rewrite HT; intros []).
    by rewrite Hfb.
Qed.
End InferenceClaims.

(** ** The candidates of the tests *)

Section ExampleShapes.
Import Mini Examples.

Ltac by_decision := refine (bool_decide_unpack _ _); vm_compute; exact I.

Ltac shape_ok_tac :=
  eexists _, _; split; [reflexivity|];
  split; [reflexivity|];
  split; [repeat (constructor; [reflexivity|]); constructor|];
  by_decision.



Lemma choice_ok_NoDiscrim1 : choice_ok (nil_of NoDiscrim1).
Proof. shape_ok_tac. Qed.

Lemma choice_ok_NoDiscrim2 : choice_ok (nil_of NoDiscrim2).
Proof. shape_ok_tac. Qed.

Lemma choice_ok_Ambig1 : choice_ok (nil_of Ambig1).
Proof. shape_ok_tac. Qed.

Lemma choice_ok_Ambig2 : choice_ok (nil_of Ambig2).
Proof. shape_ok_tac. Qed.

Lemma carries_inv X g name v :
  carries (Some (X, g)) name v → (name, v) ∈ wire_consts X.
Proof. by intros (t & g' & [= <- <-] & Hin). Qed.

Lemma no_consts_no_qualify X g rest name :
  wire_consts X = [] → ¬ qualifies (Some (X, g) :: rest) name.
Proof.
  intros Hw (vs & HF & _). inversion HF as [|? v ? ? Hc]; subst.
  apply carries_inv in Hc. rewrite Hw in Hc. by apply elem_of_nil in Hc.
Qed.
End ExampleShapes.


Lemma construction_failures_witness :
  ∃ possibles c',
    StructsWithFallback (CD:=Mini.codec) (MR:=Mini.map_range)
      Examples.Animal (Examples.nil_of Examples.OtherAnimal)
      [Examples.nil_of Examples.NoDiscrim1; Examples.nil_of Examples.NoDiscrim2] []
    = (Panic (PanicCannotDetermine possibles), c')
    ∧ Sorted String_le possibles.
Proof.
  destruct (construction_failures (CD:=Mini.codec) (MR:=Mini.map_range)
              Examples.Animal (Examples.nil_of Examples.OtherAnimal)
              [Examples.nil_of Examples.NoDiscrim1;
               Examples.nil_of Examples.NoDiscrim2] [])
    as [H1 _].
  - reflexivity.
  - apply cache_ok_nil.
  - repeat (constructor;
              [first [apply choice_ok_NoDiscrim1|apply choice_ok_NoDiscrim2]|]).
    constructor.
  - done.
  - intros ch v Hin Hc.
    apply elem_of_cons in Hin as [->|Hin];
      [|apply elem_of_cons in Hin as [->|Hin]; [|by apply elem_of_nil in Hin]];
      apply carries_inv in Hc; vm_compute in Hc; by apply elem_of_nil in Hc.
  - destruct H1 as (possibles & c' & Hs & Hsorted & _).
    + intros f. by apply no_consts_no_qualify.
    + exists possibles, c'. by split.
Defined.

Section ConstructionExamples.
Import Mini Examples.

(** C5 as stated fails in its middle part: with candidates, a fallback
    does not keep construction from failing when no wire name
    qualifies. *)
Lemma fallback_without_discriminator_counterexample :
  isNil (nil_of OtherAnimal) = false
  ∧ (∀ f, ¬ qualifies [nil_of NoDiscrim1; nil_of NoDiscrim2] f)
  ∧ (StructsWithFallback Animal (nil_of OtherAnimal)
       [nil_of NoDiscrim1; nil_of NoDiscrim2] []).1
    = Panic (PanicCannotDetermine []).
Proof.
  split; [done|]. split; [|by vm_compute].
  intros f. by apply no_consts_no_qualify.
Qed.

(** C9 as stated fails: for a type argument that is not an interface
    type the earlier [Structs] builds a dispatcher where today's panics,
    and on a nil candidate the earlier one dereferences nil where today's
    reports the argument. *)
Lemma Structs_old_new_counterexample :
  match (Old.Structs (TPointer Dog) [nil_of Dog] []).1 with
  | Ok (f, _) => f = "Type"
  | _ => False
  end
  ∧ (Structs (TPointer Dog) [nil_of Dog] []).1
    = Panic (PanicNotInterface (TPointer Dog))
  ∧ (Old.Structs Animal [None] []).1 = Panic (PanicRuntime NilDereference)
  ∧ (Structs Animal [None] []).1 = Panic (PanicNilArgument 0 Animal).
Proof.
  split; [by vm_compute|]. split; [by vm_compute|].
  split; by vm_compute.
Qed.
End ConstructionExamples.

(** ** The earlier [Structs] and today's *)

Section OldFacts.
Context {CT : CodecTypes} {CD : Codec} {MR : MapRange}.

Lemma Old_constFields_loop_eq t0 fs acc c :
  Old.constFields_loop t0 fs acc c = constFields_loop t0 fs acc c.
Proof.
  revert acc c. induction fs as [|f fs IH]; intros acc c; [done|].
  simpl. case_decide; [apply IH|].
  destruct (constValue_method (Type_ f)) as [fv|]; [|apply IH].
  fold (jsonFieldName f). case_decide; [done|].
  unfold mbind, M_bind. destruct (fv c) as [[v|p|] c1]; [apply IH|done..].
Qed.

Lemma Old_constFields_eq t0 c : Old.constFields t0 c = constFields t0 c.
Proof.
  destruct t0 as [t0|]; [|done]. unfold Old.constFields, constFields.
  case_decide; [done|]. apply Old_constFields_loop_eq.
Qed.

Lemma Old_choices_loop_eq T i choices d c :
  Forall (λ ch, ch ≠ None) choices →
  Old.choices_loop choices d c = choices_loop T i choices d c.
Proof.
  revert i d c. induction choices as [|ch choices IH]; intros i d c Hnn; [done|].
  apply Forall_cons in Hnn as [Hch Hnn]. destruct ch as [[t g]|]; [|done].
  rewrite choices_loop_cons.
  change (Old.choices_loop (Some (t, g) :: choices) d c)
    with ((fields ← Old.constFields (Some t);
           Old.choices_loop choices
             (add_fields (Some (t, g)) d (range_ fields))) c).
  unfold mbind, M_bind. rewrite Old_constFields_eq.
  destruct (constFields (Some t) c) as [[fields|p|] c1]; [|done..].
  by apply IH.
Qed.

Lemma Old_unmarshal_eq f tbl d src :
  f ≠ "" →
  Old.unmarshal f tbl d src = unmarshal (UnmarshalDiscrim false None f tbl) d src.
Proof.
  intros Hf. unfold Old.unmarshal. simpl. unfold unmarshal_discrim.
  destruct (ReadValue d) as [[err|raw] d']; [done|].
  rewrite decide_True by done.
  destruct (fieldValue raw f) as [[err|v]|p|]; simpl; [done| |done..].
  by destruct (map_index tbl v) as [[zero|]|p|].
Qed.

(** C9, as the code has it.  For a type argument that is an interface
    type and candidates none of which is the nil interface, the earlier
    [Structs] and today's come to the same: the same panic, or the same
    discriminator field and table, today's with no fallback, and then
    decode routines that return the same on every decoder state and
    destination. *)
Theorem Structs_old_new T choices c :
  rtype_Kind T = Interface →
  Forall (λ ch, ch ≠ None) choices →
  match Old.Structs T choices c, Structs T choices c with
  | (Ok (f, tbl), c1), (Ok u, c2) =>
      u = UnmarshalDiscrim false None f tbl ∧ c1 = c2
      ∧ ∀ d src, Old.unmarshal f tbl d src = unmarshal u d src
  | (Panic p1, c1), (Panic p2, c2) => p1 = p2 ∧ c1 = c2
  | (OutOfFuel, c1), (OutOfFuel, c2) => c1 = c2
  | _, _ => False
  end.
Proof.
  intros HT Hnn. unfold Structs.
  destruct (decide (choices = [])) as [->|Hne].
  { unfold StructsWithFallback, Old.Structs, raise.
    repeat case_decide; simpl in *; try done; congruence. }
  rewrite (StructsWithFallback_choices T None choices c HT Hne).
  unfold Old.Structs, determineDiscriminator, mbind, M_bind, mret, M_ret, raise.
  rewrite decide_False by (by destruct choices).
  rewrite (Old_choices_loop_eq T 0) by done.
  destruct (choices_loop T 0 choices ∅ c) as [[discrims|p|] c1]; [|done..].
  destruct (select_loop _ _ _ _) as [[f tbl]|p|]; [|done..].
  case_decide as Hf; [done|]. simpl.
  split; [done|]. split; [done|]. intros d src. by apply Old_unmarshal_eq.
Qed.
End OldFacts.

Lemma Structs_old_new_witness :
  match Old.Structs (CD:=Mini.codec) (MR:=Mini.map_range) Examples.Animal
          [Examples.nil_of Examples.Dog; Examples.nil_of Examples.Cat] [],
        Structs (CD:=Mini.codec) (MR:=Mini.map_range) Examples.Animal
          [Examples.nil_of Examples.Dog; Examples.nil_of Examples.Cat] [] with
  | (Ok (f, tbl), c1), (Ok u, c2) =>
      u = UnmarshalDiscrim false None f tbl ∧ c1 = c2
      ∧ ∀ d src, Old.unmarshal f tbl d src = unmarshal u d src
  | (Panic p1, c1), (Panic p2, c2) => p1 = p2 ∧ c1 = c2
  | (OutOfFuel, c1), (OutOfFuel, c2) => c1 = c2
  | _, _ => False
  end.
Proof.
  apply (Structs_old_new (CD:=Mini.codec) (MR:=Mini.map_range)).
  - reflexivity.
  - repeat (constructor; [done|]). constructor.
Defined.

(** ** The nil check *)

Section NilFacts.
Context {CT : CodecTypes} {CD : Codec} {MR : MapRange}.

Lemma Value_not_NilArgument T S c i T' :
  (Value T S c).1 ≠ Panic (PanicNilArgument i T').
Proof.
  unfold Value. simpl. destruct (cache_Load c S) as [info0|].
  - by case_decide.
  - destruct (makeConstInfo T S) as [info|p|] eqn:Hm; simpl.
    + destruct (cache_Load _ S); [by case_decide|].
      destruct (makeConstInfo T S); [|done..]. simpl.
      by repeat case_match.
    + intros [= ->]. unfold makeConstInfo in Hm.
      repeat (case_decide || case_match); simplify_eq.
    + done.
Qed.

Lemma constFields_loop_not_NilArgument t0 fs acc c i T' :
  (constFields_loop t0 fs acc c).1 ≠ Panic (PanicNilArgument i T').
Proof.
  revert acc c. induction fs as [|f fs IH]; intros acc c; [done|].
  simpl. case_decide; [apply IH|].
  destruct (Type_ f) as [b|e|n fl|n|T S_]; simpl; try apply IH.
  - destruct e; simpl; try apply IH. by case_decide.
  - case_decide; [done|].
    unfold constValue, mbind, M_bind, mret, M_ret.
    pose proof (Value_not_NilArgument T S_ c i T') as HV.
    destruct (Value T S_ c) as [[v|p|] c1]; simpl in *; [apply IH| |done].
    congruence.
Qed.

Lemma constFields_not_NilArgument t0 c i T' :
  (constFields t0 c).1 ≠ Panic (PanicNilArgument i T').
Proof.
  destruct t0 as [t0|]; [|done]. unfold constFields.
  case_decide; [done|]. apply constFields_loop_not_NilArgument.
Qed.

Lemma choices_loop_NilArgument T k choices d c i T' :
  (choices_loop T k choices d c).1 = Panic (PanicNilArgument i T') →
  (k ≤ i)%nat ∧ choices !! (i - k)%nat = Some None.
Proof.
  revert k d c. induction choices as [|ch choices IH]; intros k d c; [done|].
  destruct ch as [[t g]|].
  - unfold iface in *. rewrite choices_loop_cons. unfold mbind, M_bind.
    pose proof (constFields_not_NilArgument (Some t) c i T') as HF.
    destruct (constFields (Some t) c) as [[fields|p|] c1]; simpl in *;
      [|congruence|done].
    intros [Hle Hlk]%IH. split; [lia|].
    by replace (i - k) with (S (i - S k)) by lia.
  - simpl. intros [= <- <-]. split; [done|]. by rewrite Nat.sub_diag.
Qed.

Lemma select_loop_not_NilArgument n
    (entries : list (string * gmap anyval iface)) df dm i T' :
  select_loop n entries df dm ≠ Panic (PanicNilArgument i T').
Proof.
  revert df dm. induction entries as [|[f m] entries IH]; intros df dm; [done|].
  simpl. repeat case_decide; try done; apply IH.
Qed.

Lemma typed_nil_carries ch name v :
  carries (typed_nil ch) name v ↔ carries ch name v.
Proof.
  destruct ch as [[t g]|]; simpl.
  - split; intros (t' & g' & [= <- <-] & Hin); by eexists _, _.
  - split; by intros (t' & g' & [=] & _).
Qed.

Lemma typed_nil_carries_all name choices vs :
  Forall2 (λ ch v, carries ch name v) (typed_nil <$> choices) vs
  ↔ Forall2 (λ ch v, carries ch name v) choices vs.
Proof.
  rewrite Forall2_fmap_l.
  split; intros HF; (eapply Forall2_impl; [exact HF|]);
    intros ch v; apply typed_nil_carries.
Qed.

(** C10.  [isNil] holds of the nil interface only.  So the check of
    the candidates panics on a nil interface and on nothing else: a nil
    pointer boxed in the interface is let through, and the inference
    then comes to the same field and the same constants as for the
    candidates it stands for, stored with the nil pointers themselves.
    And a fallback counts as supplied exactly when it is not the nil
    interface: a boxed nil pointer is a fallback, with which
    construction without candidates goes through, where it panics with
    the nil interface. *)
Theorem nil_check_nil_interface_only :
  (∀ x : iface, isNil x = true ↔ x = None)
  ∧ (∀ T choices c i T',
       (determineDiscriminator T choices c).1 = Panic (PanicNilArgument i T') →
       choices !! i = Some None)
  ∧ (∀ T rest c,
       determineDiscriminator T (None :: rest) c
       = (Panic (PanicNilArgument 0 T), c))
  ∧ (∀ T choices f vs c,
       cache_ok c → Forall choice_ok choices → f ≠ "" →
       Forall2 (λ ch v, carries ch f v) choices vs → NoDup vs →
       (∀ g, g ≠ f → ¬ qualifies choices g) →
       ∃ c', determineDiscriminator T (typed_nil <$> choices) c
             = (Ok (f, list_to_map (zip vs (typed_nil <$> choices))), c'))
  ∧ (∀ T fallback choices c u c',
       StructsWithFallback T fallback choices c = (Ok u, c') →
       match u with
       | UnmarshalFallback _ => fallback ≠ None
       | UnmarshalDiscrim hasFallback _ _ _ =>
           hasFallback = true ↔ fallback ≠ None
       end)
  ∧ (∀ T t c,
       rtype_Kind T = Interface →
       StructsWithFallback T (Some (t, GNilPtr)) [] c
       = (Ok (UnmarshalFallback (Some (t, GNilPtr))), c)
       ∧ StructsWithFallback T None [] c = (Panic PanicNoChoices, c)).
Proof.
  split; [|split; [|split; [|split; [|split]]]].
  - intros [x|]; simpl; split; done.
  - intros T choices c i T'.
    unfold determineDiscriminator, mbind, M_bind, mret, M_ret, raise.
    pose proof (choices_loop_NilArgument T 0 choices ∅ c i T') as HL.
    destruct (choices_loop T 0 choices ∅ c) as [[discrims|p|] c1]; simpl in *.
    + pose proof (select_loop_not_NilArgument (length choices)
                    (range_ discrims) "" ∅ i T') as HS.
      destruct (select_loop _ _ _ _) as [[f m]|p|]; simpl; [|congruence|done].
      by case_decide.
    + intros [= ->]. destruct (HL eq_refl) as [_ Hlk].
      by rewrite Nat.sub_0_r in Hlk.
    + done.
  - done.
  - intros T choices f vs c Hc Hok Hf HF Hnd Huniq.
    destruct (determineDiscriminator_qualifying T (typed_nil <$> choices) f vs c)
      as (c' & Hd & _); eauto.
    + apply Forall_fmap. eapply Forall_impl; [exact Hok|].
      intros ch (t & g & -> & Hsh). by exists t, GNilPtr.
    + by apply typed_nil_carries_all.
    + intros g Hg (ws & HFg & Hndg). apply (Huniq g Hg).
      exists ws. split; [|done]. by apply typed_nil_carries_all.
  - intros T fallback choices c u c' Hs.
    destruct (StructsWithFallback_mode _ _ _ _ _ _ Hs)
      as (_ & [(_ & Hnil & _ & ->)|(_ & f & tbl & _ & _ & ->)]).
    + by destruct fallback.
    + by destruct fallback.
  - intros T t c HT.
    unfold StructsWithFallback, mbind, M_bind, mret, M_ret, raise.
    split; repeat case_decide; simpl in *; try done; try congruence; lia.
Qed.
End NilFacts.

(** * More of the package *)

(** ** Wire names *)

Section WireNames.

Lemma cut_comma_comma_free s : comma_free (cut_comma s).
Proof.
  induction s as [|c s IH]; simpl; [done|].
  case_decide; simpl; [done|]. by split.
Qed.

Lemma cut_comma_id s : comma_free s → cut_comma s = s.
Proof.
  induction s as [|c s IH]; simpl; [done|]. intros [Hc Hs].
  rewrite decide_False by done. by rewrite IH.
Qed.

Lemma cut_comma_app n opts :
  comma_free n → cut_comma (n ++ String ","%char opts) = n.
Proof.
  induction n as [|c n IH]; simpl.
  - intros _. by repeat case_decide.
  - intros [Hc Hn]. rewrite decide_False by done. by rewrite IH.
Qed.

(** X1.  The wire name of a field is the name in its json tag: the text
    before the first comma of the tag, options after the comma dropped.
    Without a json tag, with an empty one and with one that starts with
    a comma, it is the Go name of the field.  It has no comma when it
    comes from the tag, and it is not empty when the Go name is not. *)
Theorem jsonFieldName_resolution (f : StructField) :
  (Tag_Lookup (Tag f) "json" = None → jsonFieldName f = Name f)
  ∧ (Tag_Lookup (Tag f) "json" = Some "" → jsonFieldName f = Name f)
  ∧ (∀ opts, Tag_Lookup (Tag f) "json" = Some (String ","%char opts) →
       jsonFieldName f = Name f)
  ∧ (∀ n, Tag_Lookup (Tag f) "json" = Some n → comma_free n → n ≠ "" →
       jsonFieldName f = n)
  ∧ (∀ n opts, Tag_Lookup (Tag f) "json" = Some (n ++ String ","%char opts) →
       comma_free n → n ≠ "" → jsonFieldName f = n)
  ∧ (jsonFieldName f = Name f ∨ comma_free (jsonFieldName f))
  ∧ (Name f ≠ "" → jsonFieldName f ≠ "").
Proof.
  unfold jsonFieldName, Tag_Get.
  split; [|split; [|split; [|split; [|split; [|split]]]]].
  - by intros ->.
  - by intros ->.
  - intros opts ->. simpl.
    repeat (case_decide; simpl in *); try done; congruence.
  - intros n -> Hn Hne. simpl. rewrite cut_comma_id by done.
    repeat (case_decide; simpl in *); try done; congruence.
  - intros n opts -> Hn Hne. simpl. rewrite cut_comma_app by done.
    repeat (case_decide; simpl in *); try done; try congruence.
    by destruct n.
  - repeat case_decide; auto using cut_comma_comma_free.
  - intros Hname. by repeat case_decide.
Qed.

(** X2.  [lookupJSONField] panics on a type that is not a struct, a
    pointer to a struct included (it does not look through the pointer
    as [constFields] does).  On a struct it returns the type of the
    first exported field with the wire name asked for, fields that are
    not exported being passed over, and nil exactly when no exported
    field has that wire name. *)
Theorem lookupJSONField_first t jsonName :
  (rtype_Kind t ≠ Struct → lookupJSONField t jsonName = LookupPanics t)
  ∧ (rtype_Kind t = Struct →
     ∃ found, lookupJSONField t jsonName = LookupType found ∧
       match found with
       | Some ty =>
           ∃ pre f post,
             VisibleFields t = (pre ++ f :: post)%list
             ∧ PkgPath f = "" ∧ jsonFieldName f = jsonName ∧ Type_ f = ty
             ∧ Forall (λ g, PkgPath g ≠ "" ∨ jsonFieldName g ≠ jsonName) pre
       | None =>
           Forall (λ g, PkgPath g ≠ "" ∨ jsonFieldName g ≠ jsonName)
             (VisibleFields t)
       end).
Proof.
  unfold lookupJSONField. split.
  - intros Hk. by rewrite decide_True.
  - intros Hk. rewrite decide_False by (by rewrite Hk; intros []).
    eexists. split; [done|].
    induction (VisibleFields t) as [|f fs IH]; simpl; [constructor|].
    case_decide as Hp.
    + destruct (lookupJSONField_loop fs jsonName) as [ty|].
      * destruct IH as (pre & g & post & -> & ? & ? & ? & Hpre).
        exists (f :: pre), g, post. repeat split; try done;
          constructor; [by left|done].
      * constructor; [by left|done].
    + case_decide as Hn.
      * exists [], f, fs. repeat split; try done;
          by destruct (decide (PkgPath f = "")).
      * destruct (lookupJSONField_loop fs jsonName) as [ty|].
        -- destruct IH as (pre & g & post & -> & ? & ? & ? & Hpre).
           exists (f :: pre), g, post. repeat split; try done;
             constructor; [by right|done].
        -- constructor; [by right|done].
Qed.
End WireNames.

(** ** The constant-bearing fields of a shape *)

Section ConstFieldsMore.
Context {CT : CodecTypes} {CD : Codec}.

Lemma Value_Ok_constant T S c v c' :
  cache_ok c → Value T S c = (Ok v, c') → constant T S = Ok v ∧ cache_ok c'.
Proof.
  intros Hc HV. destruct (Value_constant T S c Hc) as (c'' & Hc'' & Hm).
  destruct (constant T S) as [v'|p|]; [|exfalso..].
  - rewrite HV in Hm. by injection Hm as -> ->.
  - destruct Hm as (_ & [Hm|(_ & d & Hm)]); congruence.
  - done.
Qed.

Lemma constFields_loop_cons_Ok t0 f fs acc c m c' :
  cache_ok c → constFields_loop t0 (f :: fs) acc c = (Ok m, c') →
  field_ok f = true
  ∧ ((const_entry f = None ∧ constFields_loop t0 fs acc c = (Ok m, c'))
     ∨ (∃ e c1, const_entry f = Some e ∧ acc !! e.1 = None ∧ cache_ok c1
          ∧ constFields_loop t0 fs (<[e.1 := e.2]> acc) c1 = (Ok m, c'))).
Proof.
  intros Hc Hl. unfold field_ok, const_entry. simpl in Hl.
  destruct (decide (PkgPath f ≠ "")) as [Hp|Hp]; [by split; [|left]|].
  destruct (Type_ f) as [b|e|n fl|n|T S_] eqn:Hty; simpl in Hl;
    try (by split; [|left]).
  - destruct e; simpl in Hl; try (by split; [|left]).
    by case_decide.
  - case_decide as Hfresh; [done|].
    unfold constValue, mbind, M_bind, mret, M_ret in Hl.
    destruct (Value T S_ c) as [[v|p|] c1] eqn:HV; [|done..].
    destruct (Value_Ok_constant _ _ _ _ _ Hc HV) as [Hv Hc1].
    rewrite Hv. split; [done|]. right.
    eexists _, c1. split; [done|]. simpl.
    split; [by apply eq_None_not_Some|done].
Qed.

(** When the loop of [constFields] returns, no field made it panic. *)
Lemma constFields_loop_Ok_inv t0 fs acc c m c' :
  cache_ok c → constFields_loop t0 fs acc c = (Ok m, c') →
  Forall (λ f, field_ok f = true) fs
  ∧ NoDup (omap const_entry fs).*1
  ∧ (∀ name, name ∈ (omap const_entry fs).*1 → acc !! name = None).
Proof.
  revert acc c. induction fs as [|f fs IH]; intros acc c Hc Hl.
  { split; [constructor|]. split; [constructor|].
    intros name Hin. by apply elem_of_nil in Hin. }
  destruct (constFields_loop_cons_Ok _ _ _ _ _ _ _ Hc Hl)
    as [Hf [[He Hl']|(e & c1 & He & Hfresh & Hc1 & Hl')]];
    cbn [omap list_omap]; rewrite He.
  - destruct (IH _ _ Hc Hl') as (? & ? & ?). split; [by constructor|done].
  - destruct (IH _ _ Hc1 Hl') as (Hok & Hnd & Hfr).
    split; [by constructor|]. simpl. split.
    + constructor; [|done]. intros Hin. specialize (Hfr _ Hin).
      by rewrite lookup_insert_eq in Hfr.
    + intros name [->|Hin]%elem_of_cons; [done|].
      specialize (Hfr _ Hin).
      destruct (decide (e.1 = name)) as [<-|Hne]; [done|].
      by rewrite lookup_insert_ne in Hfr.
Qed.

(** The loop of [constFields] over fields none of which makes [Value]
    panic: it returns the entries, or panics at a wire name that came
    before. *)
Lemma constFields_loop_outcome t0 fs acc c :
  cache_ok c → Forall (λ f, field_ok f = true) fs →
  ∃ c', cache_ok c' ∧
    ((constFields_loop t0 fs acc c
        = (Ok (list_to_map (omap const_entry fs) ∪ acc), c')
      ∧ NoDup (omap const_entry fs).*1
      ∧ ∀ name, name ∈ (omap const_entry fs).*1 → acc !! name = None)
     ∨ (∃ name l1 l2,
          constFields_loop t0 fs acc c = (Panic (PanicMultipleFields name t0), c')
          ∧ (omap const_entry fs).*1 = (l1 ++ name :: l2)%list
          ∧ (is_Some (acc !! name) ∨ name ∈ l1))).
Proof.
  revert acc c. induction fs as [|f fs IH]; intros acc c Hc Hok.
  { exists c. split; [done|]. left. simpl. rewrite (left_id_L ∅ (∪)).
    split; [done|]. split; [constructor|].
    intros name Hin. by apply elem_of_nil in Hin. }
  apply Forall_cons in Hok as [Hf Hok].
  assert ((const_entry f = None
           ∧ ∀ a c0, constFields_loop t0 (f :: fs) a c0 = constFields_loop t0 fs a c0)
          ∨ (∃ T S_ v, const_entry f
                         = Some (jsonFieldName f, {| av_type := T; av_val := v |})
               ∧ PkgPath f = "" ∧ Type_ f = TConst T S_ ∧ constant T S_ = Ok v))
    as [[He Hstep]|(T & S_ & v & He & Hp & Hty & Hv)].
  { unfold field_ok in Hf. unfold const_entry. simpl.
    case_decide as Hp; [by left|].
    destruct (Type_ f) as [b|e|n fl|n|T S_] eqn:Hty; simpl; try (by left).
    - destruct e; try done; by left.
    - destruct (constant T S_) as [v| |] eqn:Hv; [|done..].
      right. exists T, S_, v. by destruct (decide (PkgPath f = "")). }
  - rewrite Hstep. cbn [omap list_omap]. rewrite He. by apply IH.
  - cbn [omap list_omap]. rewrite He, fmap_cons. cbn [fst constFields_loop].
    rewrite decide_False by (by rewrite Hp; intros []).
    rewrite Hty. cbn [constValue_method]. case_decide as Hfresh.
    { exists c. split; [done|]. right.
      exists (jsonFieldName f), [], (omap const_entry fs).*1.
      split; [done|]. split; [done|]. by left. }
    unfold constValue, mbind, M_bind, mret, M_ret.
    destruct (Value_ok _ _ _ _ Hc Hv) as (c1 & -> & Hc1).
    destruct (IH (<[jsonFieldName f := {| av_type := T; av_val := v |}]> acc)
                c1 Hc1 Hok)
      as (c' & Hc' & [(-> & Hnd & Hfr)|(name & l1 & l2 & -> & Hl & Hwhy)]).
    + assert (jsonFieldName f ∉ (omap const_entry fs).*1) as Hnin.
      { intros Hin. specialize (Hfr _ Hin). by rewrite lookup_insert_eq in Hfr. }
      exists c'. split; [done|]. left. split; [|split].
      * do 2 f_equal. rewrite list_to_map_cons.
        rewrite <- insert_union_l, insert_union_r; [done|].
        by apply not_elem_of_list_to_map_1.
      * by constructor.
      * intros name [->|Hin]%elem_of_cons.
        -- by apply eq_None_not_Some.
        -- specialize (Hfr _ Hin).
           destruct (decide (jsonFieldName f = name)) as [<-|Hne]; [done|].
           by rewrite lookup_insert_ne in Hfr.
    + exists c'. split; [done|]. right.
      exists name, (jsonFieldName f :: l1), l2.
      split; [done|]. split; [by rewrite Hl|].
      destruct Hwhy as [Hs|Hin]; [|by right; right].
      destruct (decide (jsonFieldName f = name)) as [<-|Hne].
      * right. by left.
      * left. by rewrite lookup_insert_ne in Hs.
Qed.

(** [constFields] on a type passed by value and on the pointer to it. *)
Lemma constFields_loop_t0 t0 t0' fs acc c :
  match constFields_loop t0 fs acc c, constFields_loop t0' fs acc c with
  | (Ok m, c1), (Ok m', c2) => m = m' ∧ c1 = c2
  | (Panic p, c1), (Panic p', c2) =>
      c1 = c2 ∧ (p = p' ∨ ∃ name, p = PanicMultipleFields name t0
                                  ∧ p' = PanicMultipleFields name t0')
  | (OutOfFuel, c1), (OutOfFuel, c2) => c1 = c2
  | _, _ => False
  end.
Proof.
  revert acc c. induction fs as [|f fs IH]; intros acc c; [done|].
  simpl. case_decide; [apply IH|].
  destruct (constValue_method (Type_ f)) as [fv|]; [|apply IH].
  case_decide; [split; eauto|].
  unfold mbind, M_bind. destruct (fv c) as [[v|p|] c1]; [apply IH|auto..].
Qed.

(** X3.  With a memo that holds what [makeConstInfo] computes,
    [constFields] returns exactly on the shapes that are a struct or a
    pointer to one, whose exported [Const] fields all have a constant
    that can be read, none of them behind a pointer, and no two of them
    under one wire name.  What it returns then has one entry for each
    such field, its wire name mapped to its constant; fields that are
    not exported and fields of other types leave no entry. *)
Theorem constFields_accepts t0 c :
  cache_ok c →
  ((∃ fields c', constFields (Some t0) c = (Ok fields, c')) ↔ shape_ok t0)
  ∧ (∀ fields c', constFields (Some t0) c = (Ok fields, c') →
       cache_ok c'
       ∧ fields = list_to_map (wire_consts t0)
       ∧ size fields = length (wire_consts t0)
       ∧ ∀ name v, fields !! name = Some v ↔ (name, v) ∈ wire_consts t0).
Proof.
  intros Hc.
  assert (∀ fields c', constFields (Some t0) c = (Ok fields, c') → shape_ok t0)
    as Hinv.
  { intros fields c'. unfold constFields. fold (struct_type t0).
    case_decide as Hk; [done|]. intros Hl.
    destruct (constFields_loop_Ok_inv _ _ _ _ _ _ Hc Hl) as (Hok & Hnd & _).
    split; [by destruct (decide (rtype_Kind (struct_type t0) = Struct))|done]. }
  split.
  - split; [intros (fields & c' & Hl); eauto|].
    intros Hsh. destruct (constFields_spec t0 c Hc Hsh) as (c' & Hl & _). eauto.
  - intros fields c' Hl. pose proof (Hinv _ _ Hl) as Hsh.
    destruct (constFields_spec t0 c Hc Hsh) as (c'' & Hl' & Hc'').
    rewrite Hl in Hl'. injection Hl' as -> ->.
    destruct Hsh as (_ & _ & Hnd).
    split; [done|]. split; [done|]. split.
    + by apply map_size_list_to_map.
    + intros name v. symmetry. by apply elem_of_list_to_map.
Qed.

(** X4.  On a struct whose exported [Const] fields all have a constant
    that can be read, two of them under one wire name make
    [constFields] panic with the multiple-fields message, which names a
    wire name that stands on a field and on an earlier one. *)
Theorem constFields_duplicate_name t0 c :
  cache_ok c →
  rtype_Kind (struct_type t0) = Struct →
  Forall (λ f, field_ok f = true) (VisibleFields (struct_type t0)) →
  ¬ NoDup (wire_consts t0).*1 →
  ∃ name l1 l2 c',
    constFields (Some t0) c = (Panic (PanicMultipleFields name t0), c')
    ∧ (wire_consts t0).*1 = (l1 ++ name :: l2)%list ∧ name ∈ l1.
Proof.
  intros Hc Hk Hok Hdup. unfold constFields. fold (struct_type t0).
  rewrite decide_False by (by rewrite Hk; intros []).
  destruct (constFields_loop_outcome t0 _ ∅ c Hc Hok)
    as (c' & _ & [(_ & Hnd & _)|(name & l1 & l2 & Hl & Hn & Hwhy)]); [done|].
  exists name, l1, l2, c'. split; [done|]. split; [done|].
  destruct Hwhy as [[x Hx]|Hin]; [|done]. by rewrite lookup_empty in Hx.
Qed.

(** X5.  [constFields] looks through one pointer: on a struct type and
    on the pointer to it, it returns the same fields and leaves the same
    memo, and panics on the one when it panics on the other; on a
    pointer to a pointer, and on any other type that is not a struct,
    it panics with the not-a-struct message. *)
Theorem constFields_through_pointer t c :
  (rtype_Kind t = Struct →
   match constFields (Some (TPointer t)) c, constFields (Some t) c with
   | (Ok m, c1), (Ok m', c2) => m = m' ∧ c1 = c2
   | (Panic _, c1), (Panic _, c2) => c1 = c2
   | (OutOfFuel, c1), (OutOfFuel, c2) => c1 = c2
   | _, _ => False
   end)
  ∧ (rtype_Kind t ≠ Struct →
     constFields (Some (TPointer t)) c = (Panic (PanicNotStruct (TPointer t)), c)
     ∧ (rtype_Kind t ≠ Pointer →
        constFields (Some t) c = (Panic (PanicNotStruct t), c))).
Proof.
  split.
  - intros Hk. unfold constFields. simpl.
    rewrite decide_False by (by rewrite Hk; intros []).
    rewrite (decide_False (P:=rtype_Kind t = Pointer)) by (by rewrite Hk).
    rewrite decide_False by (by rewrite Hk; intros []).
    pose proof (constFields_loop_t0 (TPointer t) t (VisibleFields t) ∅ c) as E.
    destruct (constFields_loop (TPointer t) _ _ _) as [[m|p|] c1],
             (constFields_loop t _ _ _) as [[m'|p'|] c2]; try done.
    by destruct E.
  - intros Hk. unfold constFields. simpl. split.
    + by rewrite decide_True.
    + intros Hp. rewrite (decide_False (P:=rtype_Kind t = Pointer)) by done.
      by rewrite decide_True.
Qed.

(** X6.  The earlier [constFields], which computes the wire name in
    place, and today's, which calls [jsonFieldName], return the same on
    every type and memo, the nil type included. *)
Theorem constFields_earlier_same t0 c :
  Old.constFields t0 c = constFields t0 c.
Proof.
  destruct t0 as [t0|]; [|done]. unfold Old.constFields, constFields.
  case_decide; [done|]. apply Old_constFields_loop_eq.
Qed.
End ConstFieldsMore.

Lemma constFields_accepts_witness :
  let foo := {| av_type := t_string; av_val := PStr "foo" |} in
  ∃ fields c',
    constFields (CD:=Mini.codec) (Some (TPointer Examples.Book)) []
      = (Ok fields, c')
    ∧ size fields = 1 ∧ fields !! "type" = Some foo.
Proof.
  intros foo.
  destruct (constFields_accepts (CD:=Mini.codec) (TPointer Examples.Book) []
              cache_ok_nil) as [[_ Hex] Hres].
  destruct Hex as (fields & c' & Hl).
  { split; [reflexivity|].
    split; [repeat (constructor; [reflexivity|]); constructor|].
    refine (bool_decide_unpack _ _). vm_compute. exact I. }
  destruct (Hres _ _ Hl) as (_ & _ & Hsz & Hlk).
  exists fields, c'. split; [exact Hl|]. split; [exact Hsz|].
  apply Hlk. vm_compute. left.
Defined.

Lemma constFields_duplicate_name_witness :
  ∃ name l1 l2 c',
    constFields (CD:=Mini.codec) (Some Examples.DuplicateJSON) []
      = (Panic (PanicMultipleFields name Examples.DuplicateJSON), c')
    ∧ (wire_consts (CD:=Mini.codec) Examples.DuplicateJSON).*1
      = (l1 ++ name :: l2)%list
    ∧ name ∈ l1.
Proof.
  apply (constFields_duplicate_name (CD:=Mini.codec) Examples.DuplicateJSON []).
  - apply cache_ok_nil.
  - reflexivity.
  - repeat (constructor; [reflexivity|]). constructor.
  - refine (bool_decide_unpack _ _). vm_compute. exact I.
Defined.

Lemma constFields_through_pointer_witness :
  constFields (CD:=Mini.codec) (Some (TPointer (TPointer Examples.Dog))) []
  = (Panic (PanicNotStruct (TPointer (TPointer Examples.Dog))), []).
Proof.
  apply (constFields_through_pointer (CD:=Mini.codec) (TPointer Examples.Dog) []).
  discriminate.
Defined.

(** ** The memo of [Value] and the JSON form of a constant *)

Section ConstMore.
Context {CT : CodecTypes} {CD : Codec}.

Lemma Value_cases T S c :
  match cache_Load c S with
  | Some info0 =>
      Value T S c =
        (if decide (info_T info0 = T) then Ok (value info0)
         else Panic (PanicConstFieldType (Some (valueType info0, TBasic T))), c)
  | None =>
      match makeConstInfo T S with
      | Ok info => Value T S c = (Ok (value info), (S, info) :: c)
      | Panic p => Value T S c = (Panic p, c)
      | OutOfFuel => False
      end
  end.
Proof.
  unfold Value. simpl. destruct (cache_Load c S) as [info0|] eqn:Hl.
  - by case_decide.
  - destruct (makeConstInfo T S) as [info|p|] eqn:Hm; [|done|].
    + rewrite (cache_Load_store _ _ info Hl).
      rewrite (makeConstInfo_T _ _ _ Hm), decide_True by done.
      unfold cache_LoadOrStore. by rewrite Hl.
    + unfold makeConstInfo in Hm.
      repeat (case_decide || case_match); simplify_eq.
Qed.

Lemma makeConstInfo_valueType T S info :
  makeConstInfo T S = Ok info → valueType info = TBasic T.
Proof.
  unfold makeConstInfo. intros Hm.
  repeat (case_decide || case_match); simplify_eq; done.
Qed.

(** X7.  The memo of [Value] is keyed by the struct [S] alone and is
    only ever added to.  Starting from a memo that holds what
    [makeConstInfo] computes (the empty one does), a call leaves the
    memo as it was or puts one entry in front, under an [S] that had
    none, and only when it returns a value; a call that panics stores
    nothing; every entry that was there is still found.  After
    [Const[T, S].Value()] has returned [v], the same call returns [v]
    again and leaves the memo alone, and [Value()] of a [Const[T', S]]
    with another [T'] over the same [S] panics with the message that
    names the two types. *)
Theorem Value_memo T S c r c1 :
  cache_ok c →
  Value T S c = (r, c1) →
  (c1 = c
   ∨ ∃ info, cache_Load c S = None ∧ makeConstInfo T S = Ok info
             ∧ r = Ok (value info) ∧ c1 = (S, info) :: c)
  ∧ (∀ p, r = Panic p → c1 = c)
  ∧ (∀ S' info, cache_Load c S' = Some info → cache_Load c1 S' = Some info)
  ∧ (∀ v, r = Ok v →
       Value T S c1 = (Ok v, c1)
       ∧ ∀ T', T' ≠ T →
           Value T' S c1
           = (Panic (PanicConstFieldType (Some (TBasic T, TBasic T'))), c1)).
Proof.
  intros Hok HV. pose proof (Value_cases T S c) as Hc. rewrite HV in Hc.
  destruct (cache_Load c S) as [info0|] eqn:Hl.
  - injection Hc as -> ->. split; [by left|]. split; [done|]. split; [done|].
    intros v Hv. case_decide as HT; [|done]. injection Hv as <-.
    pose proof (Value_cases T S c) as H1. rewrite Hl, decide_True in H1 by done.
    split; [done|]. intros T' HT'.
    pose proof (Value_cases T' S c) as H2. rewrite Hl in H2.
    rewrite decide_False in H2 by congruence. rewrite H2.
    pose proof (Hok _ _ Hl) as Hm. apply makeConstInfo_valueType in Hm.
    by rewrite Hm, HT.
  - destruct (makeConstInfo T S) as [info|p|] eqn:Hm; [| |done].
    + injection Hc as -> ->. split; [right; by exists info|].
      split; [done|]. split.
      { intros S' info' Hl'. simpl. case_decide as HS; [congruence|done]. }
      intros v [= <-].
      assert (cache_Load ((S, info) :: c) S = Some info) as Hl1.
      { simpl. by rewrite decide_True. }
      pose proof (makeConstInfo_T _ _ _ Hm) as HT.
      split.
      * pose proof (Value_cases T S ((S, info) :: c)) as H1.
        by rewrite Hl1, decide_True in H1.
      * intros T' HT'.
        pose proof (Value_cases T' S ((S, info) :: c)) as H2.
        rewrite Hl1, decide_False in H2 by congruence.
        by rewrite H2, (makeConstInfo_valueType _ _ _ Hm).
    + injection Hc as -> ->. split; [by left|]. split; [done|].
      split; [done|]. done.
Qed.

(** X8.  The JSON form of a constant goes round: when the codec decodes
    what it encoded the constant to back to the constant, [MarshalJSON]
    of the marker gives that text, and [UnmarshalJSON] of the marker
    accepts it with the nil error, leaving the memo as [MarshalJSON]
    left it. *)
Theorem Const_round_trip T S c v c1 data :
  Value T S c = (Ok v, c1) →
  Marshal_basic {| av_type := T; av_val := v |} = inr data →
  Unmarshal_basic data T = inr v →
  MarshalJSON T S c = (Ok (inr data), c1)
  ∧ UnmarshalJSON T S data c1 = (Ok None, c1).
Proof.
  intros HV Hm Hu.
  assert (Value T S c1 = (Ok v, c1)) as HV1.
  { pose proof (Value_cases T S c) as Hc. rewrite HV in Hc.
    pose proof (Value_cases T S c1) as Hc1.
    destruct (cache_Load c S) as [info0|] eqn:Hl.
    - injection Hc as Hv <-. by rewrite Hl, <- Hv in Hc1.
    - destruct (makeConstInfo T S) as [info|p|] eqn:Hmk; [|done..].
      injection Hc as -> ->. simpl in Hc1.
      rewrite decide_True in Hc1 by done.
      by rewrite (makeConstInfo_T _ _ _ Hmk), decide_True in Hc1. }
  unfold MarshalJSON, UnmarshalJSON, mbind, M_bind, mret, M_ret.
  rewrite HV, HV1, Hm, Hu. split; [done|]. by rewrite decide_False by auto.
Qed.
End ConstMore.

Lemma Value_memo_witness :
  let S := Examples.constS t_string "foo" in
  ∃ c1, Value (CD:=Mini.codec) t_string S [] = (Ok (PStr "foo"), c1)
        ∧ Value (CD:=Mini.codec) t_string S c1 = (Ok (PStr "foo"), c1)
        ∧ Value (CD:=Mini.codec) t_int S c1
          = (Panic (PanicConstFieldType (Some (TBasic t_string, TBasic t_int))),
             c1).
Proof.
  intros S. eexists. split; [reflexivity|].
  destruct (Value_memo (CD:=Mini.codec) t_string S [] _ _ cache_ok_nil eq_refl)
    as (_ & _ & _ & H).
  destruct (H _ eq_refl) as [H1 H2]. split; [exact H1|].
  apply H2. discriminate.
Defined.

Lemma Const_round_trip_witness :
  let S := Examples.constS t_int "42" in
  ∃ c1, MarshalJSON (CD:=Mini.codec) t_int S [] = (Ok (inr "42"), c1)
        ∧ UnmarshalJSON (CD:=Mini.codec) t_int S "42" c1 = (Ok None, c1).
Proof.
  intros S. eexists.
  apply (Const_round_trip (CD:=Mini.codec) t_int S [] (PInt 42)); reflexivity.
Defined.

(** ** The scan for the discriminator *)

Section ScanMore.
Context {CT : CodecTypes} {CD : Codec}.

(** The loop of [fieldValue] passes members with other names. *)
Lemma fieldValue_loop_skip names fuel d d1 fieldName :
  skip_members names d = Some d1 → fieldName ∉ names →
  fieldValue_loop (length names + fuel) d fieldName
  = fieldValue_loop fuel d1 fieldName.
Proof.
  revert d. induction names as [|name names IH]; intros d Hs Hnin.
  { by injection Hs as ->. }
  apply not_elem_of_cons in Hnin as [Hne Hnin].
  cbn [skip_members] in Hs. cbn [length Nat.add fieldValue_loop].
  destruct (ReadToken d) as [[err|tok] d2]; [done|].
  case_decide as Htok; [subst tok|done].
  destruct (SkipValue d2) as [[err|] d3] eqn:Hsk; [done|].
  cbn [Token_Kind Token_String].
  rewrite decide_False by done.
  rewrite decide_False by (by intros []).
  rewrite decide_True by done.
  by apply IH.
Qed.

(** X9.  [fieldValue] on the text of an object returns the value of the
    first member that has the name asked for: the members before it,
    which have other names, are skipped one by one, and nothing after
    its value is read, so that a later member of the same name does not
    count.  An error of the codec on that value is returned; when the
    closing brace comes first, the error is that the field was not
    found; a token that is neither a string nor the closing brace where
    a name should stand is reported as unexpected.  (The bound that the
    model puts on the rounds of the loop, the length of the text, is
    above the number of members in any text.) *)
Theorem fieldValue_first_member data fieldName d0 names d1 :
  ReadToken (NewDecoder data) = (inr TokBeginObject, d0) →
  skip_members names d0 = Some d1 →
  fieldName ∉ names →
  (length names ≤ String.length data)%nat →
  (∀ d2 v d3,
     ReadToken d1 = (inr (TokString fieldName), d2) →
     UnmarshalDecode_any d2 = (inr v, d3) →
     fieldValue data fieldName = Ok (inr v))
  ∧ (∀ d2 err d3,
       ReadToken d1 = (inr (TokString fieldName), d2) →
       UnmarshalDecode_any d2 = (inl err, d3) →
       fieldValue data fieldName = Ok (inl (ErrCodec err)))
  ∧ (∀ d2,
       ReadToken d1 = (inr TokEndObject, d2) →
       fieldValue data fieldName = Ok (inl (ErrFieldNotFound fieldName)))
  ∧ (∀ tok d2,
       ReadToken d1 = (inr tok, d2) →
       tok ≠ TokEndObject → (∀ s, tok ≠ TokString s) →
       fieldValue data fieldName = Ok (inl (ErrUnexpectedToken tok))).
Proof.
  intros Hopen Hskip Hnin Hlen.
  assert (∃ n, fieldValue data fieldName = fieldValue_loop (S n) d1 fieldName)
    as [n ->].
  { unfold fieldValue. rewrite Hopen. cbn [Token_Kind].
    rewrite decide_False by (by intros []).
    exists (String.length data - length names)%nat.
    replace (S (String.length data))
      with (length names + S (String.length data - length names))%nat by lia.
    by rewrite (fieldValue_loop_skip _ _ _ _ _ Hskip Hnin). }
  cbn [fieldValue_loop]. split; [|split; [|split]].
  - intros d2 v d3 -> Hv. cbn [Token_Kind Token_String].
    rewrite decide_False by done. rewrite decide_False by (by intros []).
    rewrite decide_False by (by intros []). by rewrite Hv.
  - intros d2 err d3 -> Hv. cbn [Token_Kind Token_String].
    rewrite decide_False by done. rewrite decide_False by (by intros []).
    rewrite decide_False by (by intros []). by rewrite Hv.
  - intros d2 ->. cbn [Token_Kind]. by rewrite decide_True.
  - intros tok d2 -> Hend Hstr.
    rewrite decide_False by (by destruct tok).
    rewrite decide_True; [done|].
    destruct tok; try done. by destruct (Hstr s).
Qed.
End ScanMore.

Lemma fieldValue_first_member_witness :
  fieldValue (CD:=Mini.codec)
    (Examples.obj [("Bark", Mini.quoted "woof"); ("Type", Mini.quoted "foo");
                   ("Type", Mini.quoted "bar")])
    "Type"
  = Ok (inr (AVal {| av_type := t_string; av_val := PStr "foo" |})).
Proof.
  eapply (fieldValue_first_member (CD:=Mini.codec) _ "Type" _ ["Bark"]).
  - vm_compute. reflexivity.
  - vm_compute. reflexivity.
  - intros Hin. apply list_elem_of_singleton in Hin. discriminate.
  - vm_compute. lia.
  - vm_compute. reflexivity.
  - vm_compute. reflexivity.
Defined.

(** ** Construction and decode together *)

Section DispatchMore.
Context {CT : CodecTypes} {CD : Codec} {MR : MapRange}.

(** Construction over candidates of which exactly one wire name
    qualifies: the routine returned. *)
Lemma StructsWithFallback_qualifying T fallback choices f vs c :
  rtype_Kind T = Interface → cache_ok c → Forall choice_ok choices → f ≠ "" →
  Forall2 (λ ch v, carries ch f v) choices vs → NoDup vs →
  (∀ g, g ≠ f → ¬ qualifies choices g) →
  ∃ c', StructsWithFallback T fallback choices c
        = (Ok (UnmarshalDiscrim (negb (isNil fallback)) fallback f
                 (list_to_map (zip vs choices))), c')
      ∧ cache_ok c'.
Proof.
  intros HT Hc Hok Hf HF Hnd Huniq.
  assert (choices ≠ []) as Hne.
  { intros ->. apply (Huniq ""); [done|]. exists []. split; constructor. }
  destruct (determineDiscriminator_qualifying T choices f vs c)
    as (c' & Hd & Hc'); [done..|].
  exists c'. split; [|done].
  by rewrite (StructsWithFallback_choices _ _ _ _ HT Hne), Hd.
Qed.

Lemma zip_table_lookup (choices : list iface) (vs : list anyval) i ch v :
  length choices = length vs → NoDup vs →
  choices !! i = Some ch → vs !! i = Some v →
  (list_to_map (zip vs choices) : gmap anyval iface) !! v = Some ch.
Proof.
  intros Hlen Hnd Hch Hv. apply elem_of_list_to_map_1.
  - rewrite fst_zip by lia. done.
  - by eapply (elem_of_lookup_zip_with_2 pair).
Qed.



(** X10.  Construction and decode together.  For candidates that
    [constFields] accepts, of which the wire name [f] alone qualifies
    with the constants [vs]: construction returns a routine, and when
    the discriminator of the value read is the constant of the [i]-th
    candidate, the routine decodes into that candidate and no other,
    whether or not there is a fallback.  For a candidate passed as a
    pointer to [X], all of the raw value (the discriminator member
    with it) is decoded with the options of the decoder into a fresh
    [X]; what the candidate pointed to plays no part.  The destination
    gets the pointer to the fresh [X] when the codec reports no error,
    and else the error is returned and the destination is left
    alone. *)
Theorem dispatch_selects T fallback choices f vs c :
  rtype_Kind T = Interface → cache_ok c → Forall choice_ok choices → f ≠ "" →
  Forall2 (λ ch v, carries ch f v) choices vs → NoDup vs →
  (∀ g, g ≠ f → ¬ qualifies choices g) →
  ∃ u c',
    StructsWithFallback T fallback choices c = (Ok u, c') ∧
    ∀ i ch v d src raw d',
      choices !! i = Some ch → vs !! i = Some v →
      ReadValue d = (inr raw, d') →
      fieldValue raw f = Ok (inr (AVal v)) →
      unmarshal u d src = decode_into ch raw d' src
      ∧ ∀ X g, ch = Some (TPointer X, g) →
          unmarshal u d src =
            match Unmarshal raw X (Decoder_Options d') with
            | (Some err, _) =>
                {| out_res := Ok (Some (ErrCodec err)); out_dec := d';
                   out_src := src |}
            | (None, o) =>
                {| out_res := Ok None; out_dec := d';
                   out_src := assign src (Some (TPointer X, GPtr o)) |}
            end.
Proof.
  intros HT Hc Hok Hf HF Hnd Huniq.
  destruct (StructsWithFallback_qualifying T fallback choices f vs c)
    as (c' & Hs & _); [done..|].
  pose proof (Forall2_length _ _ _ HF) as Hlen.
  eexists _, c'. split; [exact Hs|].
  intros i ch v d src raw d' Hch Hv Hr Hfv.
  assert (unmarshal
            (UnmarshalDiscrim (negb (isNil fallback)) fallback f
               (list_to_map (zip vs choices))) d src
          = decode_into ch raw d' src) as Hu.
  { simpl. apply (unmarshal_discrim_known _ _ _ _ _ _ raw d' (AVal v)); try done.
    simpl. f_equal. by eapply zip_table_lookup. }
  split; [done|]. intros X g ->. rewrite Hu. unfold decode_into. simpl.
  by destruct (Unmarshal raw X (Decoder_Options d')) as [[err|] o].
Qed.


(** X12.  A candidate passed as a struct value, not as a pointer, is
    accepted at construction like the pointer to it, but a decode that
    selects it panics: the routine asks for the element type of the
    candidate's type, which a struct type has not.  The destination is
    left alone. *)
Theorem struct_value_candidate_panics T fallback choices f vs c :
  rtype_Kind T = Interface → cache_ok c → Forall choice_ok choices → f ≠ "" →
  Forall2 (λ ch v, carries ch f v) choices vs → NoDup vs →
  (∀ g, g ≠ f → ¬ qualifies choices g) →
  ∃ u c',
    StructsWithFallback T fallback choices c = (Ok u, c') ∧
    ∀ i X g v d src raw d',
      choices !! i = Some (Some (X, g)) → vs !! i = Some v →
      rtype_Kind X = Struct →
      ReadValue d = (inr raw, d') →
      fieldValue raw f = Ok (inr (AVal v)) →
      unmarshal u d src =
        {| out_res := Panic (PanicRuntime (ElemOfInvalidType X));
           out_dec := d'; out_src := src |}.
Proof.
  intros HT Hc Hok Hf HF Hnd Huniq.
  destruct (StructsWithFallback_qualifying T fallback choices f vs c)
    as (c' & Hs & _); [done..|].
  pose proof (Forall2_length _ _ _ HF) as Hlen.
  eexists _, c'. split; [exact Hs|].
  intros i X g v d src raw d' Hch Hv HX Hr Hfv. simpl.
  rewrite (unmarshal_discrim_known _ _ _ _ _ _ raw d' (AVal v) (Some (X, g)));
    try done.
  - unfold decode_into, fresh_Elem. simpl. by destruct X.
  - simpl. f_equal. by eapply zip_table_lookup.
Qed.

(** X13.  Where the routine leaves the decoder.  With a discriminator,
    the routine reads one value off the decoder and nothing more: on
    every path, a returned error and a panic included, the decoder is
    where [ReadValue] left it.  Without one (a fallback and no
    candidates), the decoder is where [UnmarshalDecode] into the
    fallback shape left it, and where it was when the fallback has no
    element type. *)
Theorem unmarshal_decoder_position u d src :
  match u with
  | UnmarshalDiscrim _ _ _ _ => out_dec (unmarshal u d src) = (ReadValue d).2
  | UnmarshalFallback fallback =>
      match fresh_Elem fallback with
      | Ok e => out_dec (unmarshal u d src) = (UnmarshalDecode d e).2
      | _ => out_dec (unmarshal u d src) = d
      end
  end.
Proof.
  assert (∀ zero raw d', out_dec (decode_into zero raw d' src) = d') as Hinto.
  { intros zero raw d'. unfold decode_into.
    destruct (fresh_Elem zero) as [e|p|]; [|done..].
    by destruct (Unmarshal raw e (Decoder_Options d')) as [[err|] o]. }
  destruct u as [fallback|hasFallback fallback f tbl]; simpl.
  - unfold unmarshal_fallback.
    destruct (fresh_Elem fallback) as [e|p|]; [|done..].
    by destruct (UnmarshalDecode d e) as [[[err|] o] d1].
  - unfold unmarshal_discrim.
    destruct (ReadValue d) as [[err|raw] d']; simpl; [done|].
    case_decide; [|apply Hinto].
    destruct (fieldValue raw f) as [[err|v]|p|]; simpl; [| |done..].
    + destruct hasFallback; simpl; [apply Hinto|done].
    + destruct (map_index tbl v) as [[zero|]|p|]; simpl; [apply Hinto| |done..].
      destruct hasFallback; simpl; [apply Hinto|done].
Qed.
End DispatchMore.

Ltac candidate_ok :=
  eexists _, _; split; [reflexivity|];
  split; [reflexivity|];
  split; [repeat (constructor; [reflexivity|]); constructor|];
  refine (bool_decide_unpack _ _); vm_compute; exact I.

Ltac candidates_carry :=
  repeat (constructor;
            [eexists _, _; (split; [reflexivity|]); vm_compute; left|]);
  constructor.

Ltac no_other_name :=
  let g := fresh "g" in
  let Hg := fresh "Hg" in
  let HF := fresh "HF" in
  let Hc := fresh "Hc" in
  intros g Hg (? & HF & _); inversion HF as [|? ? ? ? Hc]; subst;
  apply carries_inv in Hc; vm_compute in Hc;
  apply list_elem_of_singleton in Hc; congruence.

Lemma dispatch_selects_witness :
  let data := Examples.obj [("Type", Mini.quoted "foo");
                            ("Bark", Mini.quoted "woof")] in
  ∃ u c',
    StructsWithFallback (CD:=Mini.codec) (MR:=Mini.map_range) Examples.Animal
      None [Examples.nil_of Examples.Dog; Examples.nil_of Examples.Cat] []
    = (Ok u, c')
    ∧ ∀ src,
        unmarshal (CD:=Mini.codec) u data src =
          {| out_res := Ok None; out_dec := "";
             out_src :=
               assign src
                 (Some (TPointer Examples.Dog,
                        GPtr [("Type", Mini.quoted "foo");
                              ("Bark", Mini.quoted "woof")])) |}.
Proof.
  intros data.
  destruct (dispatch_selects (CD:=Mini.codec) (MR:=Mini.map_range)
              Examples.Animal None
              [Examples.nil_of Examples.Dog; Examples.nil_of Examples.Cat]
              "Type"
              [{| av_type := t_string; av_val := PStr "foo" |};
               {| av_type := t_string; av_val := PStr "bar" |}] [])
    as (u & c' & Hs & H).
  - reflexivity.
  - apply cache_ok_nil.
  - repeat (constructor; [candidate_ok|]). constructor.
  - done.
  - candidates_carry.
  - refine (bool_decide_unpack _ _). vm_compute. exact I.
  - no_other_name.
  - exists u, c'. split; [exact Hs|]. intros src.
    edestruct (H 0 (Examples.nil_of Examples.Dog)
                 {| av_type := t_string; av_val := PStr "foo" |} data src)
      as [_ H2];
      [reflexivity|reflexivity|vm_compute; reflexivity
      |vm_compute; reflexivity|].
    rewrite (H2 _ _ eq_refl). reflexivity.
Defined.


Lemma struct_value_candidate_panics_witness :
  let data := Examples.obj [("Type", Mini.quoted "foo")] in
  ∃ u c',
    StructsWithFallback (CD:=Mini.codec) (MR:=Mini.map_range) Examples.Animal
      None [Examples.value_of Examples.Dog; Examples.value_of Examples.Cat] []
    = (Ok u, c')
    ∧ ∀ src,
        unmarshal (CD:=Mini.codec) u data src =
          {| out_res := Panic (PanicRuntime (ElemOfInvalidType Examples.Dog));
             out_dec := ""; out_src := src |}.
Proof.
  intros data.
  destruct (struct_value_candidate_panics (CD:=Mini.codec) (MR:=Mini.map_range)
              Examples.Animal None
              [Examples.value_of Examples.Dog; Examples.value_of Examples.Cat]
              "Type"
              [{| av_type := t_string; av_val := PStr "foo" |};
               {| av_type := t_string; av_val := PStr "bar" |}] [])
    as (u & c' & Hs & H).
  - reflexivity.
  - apply cache_ok_nil.
  - repeat (constructor; [candidate_ok|]). constructor.
  - done.
  - candidates_carry.
  - refine (bool_decide_unpack _ _). vm_compute. exact I.
  - no_other_name.
  - exists u, c'. split; [exact Hs|]. intros src.
    eapply (H 0 Examples.Dog (GVal (CT:=Mini.types) [])
              {| av_type := t_string; av_val := PStr "foo" |} data src);
      [reflexivity|reflexivity|reflexivity|vm_compute; reflexivity
      |vm_compute; reflexivity].
Defined.

(** ** The order of iteration over maps *)

Section OrderMore.
Context {CT : CodecTypes} {CD : Codec}.

Lemma String_le_trans : Transitive String_le.
Proof.
  intros a. induction a as [|x a IH]; intros [|y b] [|z k];
    unfold String_le, String.leb; simpl; try done.
  unfold Ascii.compare.
  destruct (N.compare_spec (N_of_ascii x) (N_of_ascii y)) as [E1|L1|G1];
    try done;
    destruct (N.compare_spec (N_of_ascii y) (N_of_ascii z)) as [E2|L2|G2];
    try done;
    destruct (N.compare_spec (N_of_ascii x) (N_of_ascii z)) as [E3|L3|G3];
    try done; try lia.
  apply IH.
Qed.

Lemma String_le_antisym : AntiSymm (=) String_le.
Proof. intros a b. apply String.leb_antisym. Qed.

(** The map that the first loop builds does not depend on the order in
    which the entries of [constFields] come. *)
Lemma choices_loop_order (MR1 MR2 : MapRange) T choices c :
  cache_ok c → Forall choice_ok choices →
  ∃ discrims c1 c2,
    choices_loop (MR:=MR1) T 0 choices ∅ c = (Ok discrims, c1)
    ∧ choices_loop (MR:=MR2) T 0 choices ∅ c = (Ok discrims, c2)
    ∧ ∀ name, discrims !! name = tbl name choices.
Proof.
  intros Hc Hok.
  destruct (discrims_entries (MR:=MR1) T choices c Hc Hok)
    as (m1 & c1 & Hl1 & _ & Hd1 & _).
  destruct (discrims_entries (MR:=MR2) T choices c Hc Hok)
    as (m2 & c2 & Hl2 & _ & Hd2 & _).
  assert (m2 = m1) as ->.
  { apply map_eq. intros name. by rewrite Hd1, Hd2. }
  by exists m1, c1, c2.
Qed.

Lemma sorted_keys_order (MR1 MR2 : MapRange)
    (discrims : gmap string (gmap anyval iface)) :
  sorted_keys (MR:=MR1) discrims = sorted_keys (MR:=MR2) discrims.
Proof.
  unfold sorted_keys.
  apply (Sorted_unique String_le
           (Transitive0:=String_le_trans) (AntiSymm0:=String_le_antisym)).
  - apply Sorted_merge_sort. apply _.
  - apply Sorted_merge_sort. apply _.
  - rewrite !merge_sort_Permutation.
    by rewrite (range_perm (MapRange:=MR1)), (range_perm (MapRange:=MR2)).
Qed.

(** X14.  Go leaves the order of iteration over a map open, and
    [determineDiscriminator] iterates over two maps.  For candidates
    that [constFields] accepts, none with an empty wire name, the
    outcome is the same under any two orders: the same discriminator
    with the same table, or the same cannot-determine panic with the
    same sorted list of names.  Only the ambiguous panic depends on
    the order: it is raised under both, but which two names it shows
    is up to the order. *)
Theorem inference_order_independent (MR1 MR2 : MapRange) T choices c :
  cache_ok c → Forall choice_ok choices →
  (∀ ch v, ch ∈ choices → ¬ carries ch "" v) →
  match (determineDiscriminator (MR:=MR1) T choices c).1 with
  | Ok r => (determineDiscriminator (MR:=MR2) T choices c).1 = Ok r
  | Panic (PanicCannotDetermine possibles) =>
      (determineDiscriminator (MR:=MR2) T choices c).1
      = Panic (PanicCannotDetermine possibles)
  | Panic (PanicAmbiguous _ _) =>
      ∃ g1 g2, (determineDiscriminator (MR:=MR2) T choices c).1
               = Panic (PanicAmbiguous g1 g2)
  | _ => False
  end.
Proof.
  intros Hc Hok Hnames.
  destruct (choices_loop_order MR1 MR2 T choices c Hc Hok)
    as (discrims & c1 & c2 & Hl1 & Hl2 & Hd).
  rewrite (determineDiscriminator_unfold (MR:=MR1) _ _ _ _ _ Hl1).
  rewrite (determineDiscriminator_unfold (MR:=MR2) _ _ _ _ _ Hl2).
  set (keep := λ e : string * gmap anyval iface, size e.2 = length choices).
  assert (filter keep (range_ (MapRange:=MR1) discrims)
          ≡ₚ filter keep (range_ (MapRange:=MR2) discrims)) as Hperm.
  { by rewrite (range_perm (MapRange:=MR1)), (range_perm (MapRange:=MR2)). }
  assert (∀ MR l, l ≡ₚ filter keep (range_ (MapRange:=MR) discrims) →
                  Forall (λ e, e.1 ≠ "") l) as Hnon.
  { intros MR l Hl. apply Forall_forall. intros [g m] Hin Heq.
    rewrite Hl in Hin. apply list_elem_of_filter in Hin as [_ Hin].
    apply (elem_of_range (MR:=MR)) in Hin. simpl in Heq. subst g.
    assert (is_Some (tbl "" choices)) as Hs by (rewrite <- Hd; eauto).
    apply tbl_is_Some in Hs as (ch & v & Hch & Hcar). by eapply Hnames. }
  pose proof (select_loop_cases (length choices)
                (range_ (MapRange:=MR1) discrims) (Hnon MR1 _ (reflexivity _)))
    as Hsel1.
  pose proof (select_loop_cases (length choices)
                (range_ (MapRange:=MR2) discrims) (Hnon MR2 _ (reflexivity _)))
    as Hsel2.
  pose proof (Hnon MR1 _ (reflexivity _)) as Hne1.
  fold keep in Hsel1, Hsel2.
  destruct (filter keep (range_ (MapRange:=MR1) discrims))
    as [|[f1 m1] [|[f2 m2] rest]] eqn:Hf1.
  - apply Permutation_nil in Hperm. rewrite Hperm in Hsel2.
    rewrite Hsel1, Hsel2. simpl.
    by rewrite (sorted_keys_order MR1 MR2).
  - apply Permutation_singleton_l in Hperm. rewrite <- Hperm in Hsel2.
    rewrite Hsel1, Hsel2. apply Forall_cons in Hne1 as [Hne1 _].
    simpl in Hne1. by destruct (decide (f1 = "")).
  - rewrite Hsel1. simpl.
    pose proof (Permutation_length Hperm) as Hlen.
    destruct (filter keep (range_ (MapRange:=MR2) discrims))
      as [|[g1 n1] [|[g2 n2] rest']]; simpl in Hlen; try lia.
    rewrite Hsel2. simpl. eauto.
Qed.
End OrderMore.

Lemma inference_order_independent_witness :
  ∃ g1 g2,
    (determineDiscriminator (CD:=Mini.codec) (MR:=reverse_range)
       Examples.Animal
       [Examples.nil_of Examples.Ambig1; Examples.nil_of Examples.Ambig2] []).1
    = Panic (PanicAmbiguous g1 g2).
Proof.
  assert (∃ a b,
    (determineDiscriminator (CD:=Mini.codec) (MR:=Mini.map_range)
       Examples.Animal
       [Examples.nil_of Examples.Ambig1; Examples.nil_of Examples.Ambig2] []).1
    = Panic (PanicAmbiguous a b)) as (a & b & E).
  { eexists _, _. vm_compute. reflexivity. }
  pose proof (inference_order_independent (CD:=Mini.codec)
                Mini.map_range reverse_range Examples.Animal
                [Examples.nil_of Examples.Ambig1;
                 Examples.nil_of Examples.Ambig2] []) as H.
  rewrite E in H. apply H.
  - apply cache_ok_nil.
  - repeat (constructor; [candidate_ok|]). constructor.
  - intros ch v Hin Hc.
    apply elem_of_cons in Hin as [->|Hin];
      [|apply elem_of_cons in Hin as [->|Hin]; [|by apply elem_of_nil in Hin]];
      apply carries_inv in Hc; vm_compute in Hc;
      repeat (apply elem_of_cons in Hc as [Hc|Hc]; [discriminate|]);
      by apply elem_of_nil in Hc.
Defined.

(** ** What a successful inference means *)

Section SoundMore.
Context {CT : CodecTypes} {CD : Codec} {MR : MapRange}.

Lemma select_loop_Ok_inv n (entries : list (string * gmap anyval iface))
    df dm f m :
  select_loop n entries df dm = Ok (f, m) →
  (f, m) = (df, dm) ∨ ((f, m) ∈ entries ∧ size m = n).
Proof.
  revert df dm. induction entries as [|[g k] entries IH]; intros df dm Hs.
  { left. by injection Hs as <- <-. }
  simpl in Hs. case_decide as Hsz.
  - destruct (IH _ _ Hs) as [?|[? ?]]; [by left|right].
    split; [by right|done].
  - case_decide; [done|].
    destruct (IH _ _ Hs) as [[= -> ->]|[? ?]]; right.
    + split; [by left|]. by destruct (decide (size k = n)).
    + split; [by right|done].
Qed.

Lemma range_empty {V} : range_ (∅ : gmap string V) = [].
Proof. apply Permutation_nil. by rewrite range_perm, map_to_list_empty. Qed.

(** The name and the table that the inference returns. *)
Lemma determineDiscriminator_Ok_inv T choices c f m c' :
  cache_ok c → Forall choice_ok choices →
  determineDiscriminator T choices c = (Ok (f, m), c') →
  f ≠ "" ∧ choices ≠ [] ∧ tbl f choices = Some m ∧ size m = length choices.
Proof.
  intros Hc Hok Hd.
  destruct (discrims_entries T choices c Hc Hok)
    as (discrims & c1 & Hl & _ & Hdm & _ & Hin).
  rewrite (determineDiscriminator_unfold _ _ _ _ _ Hl) in Hd.
  destruct (select_loop _ _ _ _) as [[f' m']|p|] eqn:Hs; [|done..].
  case_decide as Hf; [done|]. injection Hd as -> -> ->.
  apply select_loop_Ok_inv in Hs as [[= -> ->]|[Hmem Hsz]]; [done|].
  apply elem_of_range in Hmem. rewrite Hdm in Hmem.
  split; [done|]. split; [|done].
  intros ->. simpl in Hmem. discriminate.
Qed.

(** X15.  What a successful inference means.  Whenever
    [determineDiscriminator] returns, over candidates that
    [constFields] accepts, the name it returns is not empty and is a
    constant-bearing wire name of every candidate, with constants that
    differ from one candidate to the next; the table it returns has one
    entry for each candidate and no other: each candidate is found
    under its own constant, and every entry is a candidate under its
    constant for that name.  When no candidate has an empty wire name,
    the name returned is the only one that qualifies. *)
Theorem determineDiscriminator_sound T choices c f m c' :
  cache_ok c → Forall choice_ok choices →
  determineDiscriminator T choices c = (Ok (f, m), c') →
  f ≠ "" ∧ choices ≠ [] ∧ qualifies choices f
  ∧ size m = length choices
  ∧ (∀ ch, ch ∈ choices → ∃ v, carries ch f v ∧ m !! v = Some ch)
  ∧ (∀ v ch, m !! v = Some ch → ch ∈ choices ∧ carries ch f v)
  ∧ ((∀ ch v, ch ∈ choices → ¬ carries ch "" v) →
     ∀ g, qualifies choices g → g = f).
Proof.
  intros Hc Hok Hd.
  destruct (determineDiscriminator_Ok_inv _ _ _ _ _ _ Hc Hok Hd)
    as (Hf & Hne & Ht & Hsz).
  assert (qualifies choices f) as Hq by (apply tbl_qualifies; eauto).
  split; [done|]. split; [done|]. split; [done|]. split; [done|].
  destruct Hq as (vs & HF & Hnd).
  pose proof (Forall2_length _ _ _ HF) as Hlen.
  pose proof (tbl_closed f choices vs Hok Hne HF Hnd) as Ht'.
  assert (m = list_to_map (zip vs choices)) as -> by congruence.
  assert (NoDup (zip vs choices).*1) as Hndz by (rewrite fst_zip by lia; done).
  split; [|split].
  - intros ch [i Hi]%list_elem_of_lookup.
    destruct (Forall2_lookup_l _ _ _ _ _ HF Hi) as (v & Hv & Hcar).
    exists v. split; [done|]. apply elem_of_list_to_map_1; [done|].
    by eapply (elem_of_lookup_zip_with_2 pair).
  - intros v ch Hlk. apply elem_of_list_to_map_2 in Hlk.
    apply elem_of_lookup_zip_with_1 in Hlk
      as (i & v' & ch' & [= -> ->] & Hv & Hch).
    split; [by eapply list_elem_of_lookup_2|].
    by eapply (Forall2_lookup_lr _ _ _ _ _ _ HF).
  - intros Hnames g Hg.
    destruct (decide (g = f)) as [->|Hgf]; [done|]. exfalso.
    destruct (discrims_entries T choices c Hc Hok)
      as (discrims & c1 & Hl & _ & Hdm & Hndf & Hin).
    rewrite (determineDiscriminator_unfold _ _ _ _ _ Hl) in Hd.
    assert (Forall (λ e, e.1 ≠ "")
              (filter (λ e, size e.2 = length choices) (range_ discrims)))
      as Hnon.
    { apply Forall_forall. intros [h k] [Hh Hk]%Hin Heq. simpl in Heq. subst h.
      assert (is_Some (tbl "" choices)) as Hs by eauto.
      apply tbl_is_Some in Hs as (ch & v & Hch & Hcar). by eapply Hnames. }
    pose proof (select_loop_cases (length choices) (range_ discrims) Hnon)
      as Hsel.
    apply tbl_qualifies in Hg as (mg & Hmg & Hsg); [|done..].
    assert ((f, list_to_map (zip vs choices))
              ∈ filter (λ e, size e.2 = length choices) (range_ discrims))
      as Hin1 by (by apply Hin).
    assert ((g, mg) ∈ filter (λ e, size e.2 = length choices) (range_ discrims))
      as Hin2 by (by apply Hin).
    destruct (filter _ (range_ discrims)) as [|[g1 n1] [|[g2 n2] rest]].
    + by apply elem_of_nil in Hin1.
    + apply list_elem_of_singleton in Hin1, Hin2. congruence.
    + by rewrite Hsel in Hd.
Qed.

Lemma carries_functional ch name v v' :
  choice_ok ch → carries ch name v → carries ch name v' → v = v'.
Proof.
  intros Hok H1 H2.
  apply (carries_value_at _ _ _ Hok) in H1, H2. congruence.
Qed.

(** One constant under [f] in two candidates: [f] does not qualify. *)
Lemma duplicate_not_qualifies choices f i j chi chj v :
  Forall choice_ok choices → i ≠ j →
  choices !! i = Some chi → choices !! j = Some chj →
  carries chi f v → carries chj f v →
  ¬ qualifies choices f.
Proof.
  intros Hok Hij Hi Hj Hci Hcj (vs & HF & Hnd).
  destruct (Forall2_lookup_l _ _ _ _ _ HF Hi) as (vi & Hvi & Hci').
  destruct (Forall2_lookup_l _ _ _ _ _ HF Hj) as (vj & Hvj & Hcj').
  assert (choice_ok chi) as Hoki.
  { eapply Forall_forall; [exact Hok|]. by eapply list_elem_of_lookup_2. }
  assert (choice_ok chj) as Hokj.
  { eapply Forall_forall; [exact Hok|]. by eapply list_elem_of_lookup_2. }
  assert (vi = v) as -> by exact (carries_functional chi f vi v Hoki Hci' Hci).
  assert (vj = v) as -> by exact (carries_functional chj f vj v Hokj Hcj' Hcj).
  apply Hij. exact (NoDup_lookup vs i j v Hnd Hvi Hvj).
Qed.

(** Construction over candidates of which no wire name qualifies. *)
Lemma StructsWithFallback_none T fallback choices c :
  rtype_Kind T = Interface → cache_ok c →
  Forall choice_ok choices → choices ≠ [] →
  (∀ f, ¬ qualifies choices f) →
  ∃ possibles c',
    StructsWithFallback T fallback choices c
      = (Panic (PanicCannotDetermine possibles), c')
    ∧ ∀ name, name ∈ possibles ↔ ∃ ch v, ch ∈ choices ∧ carries ch name v.
Proof.
  intros HT Hc Hok Hne Hnone.
  destruct (discrims_entries T choices c Hc Hok)
    as (discrims & c1 & Hl & Hc1 & Hd & Hndf & Hin).
  assert (filter (λ e, size e.2 = length choices) (range_ discrims) = [])
    as Hfilter.
  { destruct (filter _ _) as [|[g m] rest] eqn:Hfl; [done|]. exfalso.
    assert ((g, m) ∈ (g, m) :: rest) as [Hg Hm]%Hin by left.
    apply (Hnone g). apply tbl_qualifies; eauto. }
  pose proof (select_loop_cases (length choices) (range_ discrims)) as Hsel.
  rewrite Hfilter in Hsel. specialize (Hsel ltac:(constructor)).
  exists (sorted_keys discrims), c1.
  rewrite (StructsWithFallback_choices _ _ _ _ HT Hne).
  rewrite (determineDiscriminator_unfold _ _ _ _ _ Hl), Hsel.
  rewrite decide_True by done. split; [done|].
  intros name. unfold sorted_keys.
  rewrite merge_sort_Permutation, <- tbl_is_Some, <- Hd.
  rewrite list_elem_of_fmap. split.
  - intros ([k m] & -> & Hkm). apply elem_of_range in Hkm. eauto.
  - intros [m Hm]. exists (name, m). split; [done|]. by apply elem_of_range.
Qed.

(** X16.  Two candidates with one and the same constant under the wire
    name [f] do not go together: [f] cannot be the discriminator, so
    that construction never returns a routine that looks at [f]; and
    when no other wire name qualifies, construction panics, with or
    without a fallback, with the cannot-determine message (no message
    about the repeated constant), whose list of names has [f] in it. *)
Theorem duplicate_constant_rejected T fallback choices c f i j chi chj v :
  rtype_Kind T = Interface → cache_ok c → Forall choice_ok choices →
  i ≠ j → choices !! i = Some chi → choices !! j = Some chj →
  carries chi f v → carries chj f v →
  (∀ u c', StructsWithFallback T fallback choices c = (Ok u, c') →
     ∀ hasFallback fb m, u ≠ UnmarshalDiscrim hasFallback fb f m)
  ∧ ((∀ g, g ≠ f → ¬ qualifies choices g) →
     ∃ possibles c',
       StructsWithFallback T fallback choices c
         = (Panic (PanicCannotDetermine possibles), c')
       ∧ f ∈ possibles).
Proof.
  intros HT Hc Hok Hij Hi Hj Hci Hcj.
  pose proof (duplicate_not_qualifies _ _ _ _ _ _ _ Hok Hij Hi Hj Hci Hcj)
    as Hnq.
  assert (choices ≠ []) as Hne by (by intros ->).
  split.
  - intros u c' Hs hasFallback fb m ->.
    destruct (StructsWithFallback_mode _ _ _ _ _ _ Hs)
      as (_ & [(-> & _)|(_ & f' & m' & _ & Hd & [= _ _ <- <-])]); [done|].
    destruct (determineDiscriminator_Ok_inv _ _ _ _ _ _ Hc Hok Hd)
      as (_ & _ & Ht & Hsz).
    apply Hnq. apply tbl_qualifies; eauto.
  - intros Hothers.
    destruct (StructsWithFallback_none T fallback choices c)
      as (possibles & c' & Hs & Hp); [done..| |].
    { intros g. destruct (decide (g = f)) as [->|Hg]; [done|by apply Hothers]. }
    exists possibles, c'. split; [done|]. apply Hp.
    exists chi, v. split; [by eapply list_elem_of_lookup_2|done].
Qed.
End SoundMore.

Lemma determineDiscriminator_sound_witness :
  qualifies (CD:=Mini.codec)
    [Examples.nil_of Examples.Dog; Examples.nil_of Examples.Cat] "Type"
  ∧ ∀ g, qualifies (CD:=Mini.codec)
           [Examples.nil_of Examples.Dog; Examples.nil_of Examples.Cat] g →
         g = "Type".
Proof.
  assert (Forall (choice_ok (CD:=Mini.codec))
            [Examples.nil_of Examples.Dog; Examples.nil_of Examples.Cat])
    as Hok.
  { repeat (constructor; [candidate_ok|]). constructor. }
  destruct (determineDiscriminator_qualifying (CD:=Mini.codec)
              (MR:=Mini.map_range) Examples.Animal
              [Examples.nil_of Examples.Dog; Examples.nil_of Examples.Cat]
              "Type"
              [{| av_type := t_string; av_val := PStr "foo" |};
               {| av_type := t_string; av_val := PStr "bar" |}] [])
    as (c' & Hd & _).
  - apply cache_ok_nil.
  - exact Hok.
  - done.
  - candidates_carry.
  - refine (bool_decide_unpack _ _). vm_compute. exact I.
  - no_other_name.
  - destruct (determineDiscriminator_sound (CD:=Mini.codec)
                (MR:=Mini.map_range) _ _ _ _ _ _ cache_ok_nil Hok Hd)
      as (_ & _ & Hq & _ & _ & _ & Hu).
    split; [exact Hq|]. apply Hu.
    intros ch v Hin Hc.
    apply elem_of_cons in Hin as [->|Hin];
      [|apply elem_of_cons in Hin as [->|Hin]; [|by apply elem_of_nil in Hin]];
      apply carries_inv in Hc; vm_compute in Hc;
      repeat (apply elem_of_cons in Hc as [Hc|Hc]; [discriminate|]);
      by apply elem_of_nil in Hc.
Defined.

Lemma duplicate_constant_rejected_witness :
  ∃ possibles c',
    StructsWithFallback (CD:=Mini.codec) (MR:=Mini.map_range) Examples.Animal
      (Examples.nil_of Examples.OtherAnimal)
      [Examples.nil_of Examples.Dog; Examples.nil_of Examples.Dog] []
    = (Panic (PanicCannotDetermine possibles), c')
    ∧ "Type" ∈ possibles.
Proof.
  edestruct (duplicate_constant_rejected (CD:=Mini.codec) (MR:=Mini.map_range)
               Examples.Animal (Examples.nil_of Examples.OtherAnimal)
               [Examples.nil_of Examples.Dog; Examples.nil_of Examples.Dog] []
               "Type" 0 1 (Examples.nil_of Examples.Dog)
               (Examples.nil_of Examples.Dog)
               {| av_type := t_string; av_val := PStr "foo" |})
    as [_ H].
  - reflexivity.
  - apply cache_ok_nil.
  - repeat (constructor; [candidate_ok|]). constructor.
  - discriminate.
  - reflexivity.
  - reflexivity.
  - eexists _, _. split; [reflexivity|]. vm_compute. left.
  - eexists _, _. split; [reflexivity|]. vm_compute. left.
  - apply H. no_other_name.
Defined.

(** ** Edges of [constFields] and of the two loops that may not end *)

Section EdgesMore.
Context {CT : CodecTypes} {CD : Codec}.

Lemma constFields_loop_app t0 pre rest acc c :
  constFields_loop t0 (pre ++ rest) acc c =
    match constFields_loop t0 pre acc c with
    | (Ok acc', c') => constFields_loop t0 rest acc' c'
    | (Panic p, c') => (Panic p, c')
    | (OutOfFuel, c') => (OutOfFuel, c')
    end.
Proof.
  revert acc c. induction pre as [|f pre IH]; intros acc c; [done|].
  cbn [app constFields_loop]. case_decide; [apply IH|].
  destruct (constValue_method (Type_ f)) as [fv|]; [|apply IH].
  case_decide; [done|].
  unfold mbind, M_bind. destruct (fv c) as [[v|p|] c1]; [apply IH|done..].
Qed.

(** X17.  An exported field whose type is a pointer to a [Const] has
    the method [constValue] too, on a nil pointer: when the fields
    before it pass and its wire name is not taken, [constFields] does
    not return and does not report the field, it panics with the
    dereference of nil. *)
Theorem pointer_to_Const_field_panics t0 c pre f post T S_ :
  cache_ok c → rtype_Kind (struct_type t0) = Struct →
  VisibleFields (struct_type t0) = (pre ++ f :: post)%list →
  Forall (λ f, field_ok f = true) pre →
  NoDup (omap const_entry pre).*1 →
  PkgPath f = "" → Type_ f = TPointer (TConst T S_) →
  jsonFieldName f ∉ (omap const_entry pre).*1 →
  ∃ c', constFields (Some t0) c = (Panic (PanicRuntime NilDereference), c').
Proof.
  intros Hc Hk Hfs Hpre Hnd Hp Hty Hfresh.
  unfold constFields. fold (struct_type t0).
  rewrite decide_False by (by rewrite Hk; intros []).
  rewrite Hfs, constFields_loop_app.
  destruct (constFields_loop_outcome t0 pre ∅ c Hc Hpre)
    as (c' & _ & [(-> & _)|(name & l1 & l2 & _ & Hl & [[x Hx]|Hin])]).
  - exists c'. cbn [constFields_loop].
    rewrite decide_False by (by rewrite Hp; intros []).
    rewrite Hty. cbn [constValue_method].
    rewrite decide_False; [done|].
    rewrite (right_id_L ∅ (∪)). intros Hs.
    apply Hfresh. apply elem_of_dom in Hs.
    by rewrite dom_list_to_map_L, elem_of_list_to_set in Hs.
  - by rewrite lookup_empty in Hx.
  - exfalso. rewrite Hl in Hnd. apply NoDup_app in Hnd as (_ & Hnd & _).
    apply (Hnd name Hin). by left.
Qed.

(** X18.  [Value] calls itself at most once.  On a miss in the memo it
    stores what [makeConstInfo] computed and calls itself; that second
    call finds the entry.  So one call is not enough on a miss, two
    are enough always, and any larger bound on the depth gives the
    result of two. *)
Theorem Value_terminates n T S c :
  Value_rec (Datatypes.S (Datatypes.S n)) T S c = Value T S c
  ∧ (∃ r, (Value T S c).1 = Ok r ∨ ∃ p, (Value T S c).1 = Panic p)
  ∧ (∀ info, cache_Load c S = None → makeConstInfo T S = Ok info →
       (Value_rec 1 T S c).1 = OutOfFuel).
Proof.
  destruct (Value_rec_fuel n T S c) as [Hn Hf]. split; [done|]. split.
  - unfold Value. destruct (Value_rec 2 T S c).1 as [r|p|]; [eauto| |done].
    exists (PStr ""). eauto.
  - intros info Hl Hm. simpl. by rewrite Hl, Hm.
Qed.

(** The loop of [fieldValue] ends within as many rounds as the decoder
    has input left. *)
Lemma fieldValue_loop_returns (measure : Decoder → nat) fieldName :
  (∀ d tok d', ReadToken d = (inr tok, d') → (measure d' < measure d)%nat) →
  (∀ d d', SkipValue d = (None, d') → (measure d' ≤ measure d)%nat) →
  ∀ fuel d, (measure d < fuel)%nat →
    (∃ r, fieldValue_loop fuel d fieldName = Ok r)
    ∧ ∀ fuel', (measure d < fuel')%nat →
        fieldValue_loop fuel' d fieldName = fieldValue_loop fuel d fieldName.
Proof.
  intros Hread Hskip fuel. induction fuel as [|fuel IH]; intros d Hm; [lia|].
  split.
  - cbn [fieldValue_loop].
    destruct (ReadToken d) as [[err|tok] d1] eqn:Ht; [eauto|].
    pose proof (Hread _ _ _ Ht).
    repeat case_decide; eauto.
    + destruct (SkipValue d1) as [[err|] d2] eqn:Hs; [eauto|].
      pose proof (Hskip _ _ Hs). apply IH. lia.
    + destruct (UnmarshalDecode_any d1) as [[err|v] d2]; eauto.
  - intros [|fuel'] Hf; [lia|]. cbn [fieldValue_loop].
    destruct (ReadToken d) as [[err|tok] d1] eqn:Ht; [done|].
    pose proof (Hread _ _ _ Ht).
    repeat case_decide; try done.
    destruct (SkipValue d1) as [[err|] d2] eqn:Hs; [done|].
    pose proof (Hskip _ _ Hs). apply (IH d2); lia.
Qed.

(** X19.  [fieldValue] returns.  Over a codec whose [ReadToken] uses up
    input and whose [SkipValue] gives none back, input being measured
    so that a fresh decoder has no more of it than the text has bytes,
    the loop of [fieldValue] ends: the call returns a value or an
    error, it does not panic, and the bound that the model puts on the
    rounds of the loop is not reached. *)
Theorem fieldValue_returns (measure : Decoder → nat) data fieldName :
  (∀ d tok d', ReadToken d = (inr tok, d') → (measure d' < measure d)%nat) →
  (∀ d d', SkipValue d = (None, d') → (measure d' ≤ measure d)%nat) →
  (measure (NewDecoder data) ≤ S (String.length data))%nat →
  ∃ r, fieldValue data fieldName = Ok r.
Proof.
  intros Hread Hskip Hnew. unfold fieldValue.
  destruct (ReadToken (NewDecoder data)) as [[err|tok] d0] eqn:Ht; [eauto|].
  case_decide; [eauto|]. pose proof (Hread _ _ _ Ht) as Hlt.
  destruct (fieldValue_loop_returns measure fieldName Hread Hskip
              (S (String.length data)) d0) as [Hr _]; [lia|done].
Qed.
End EdgesMore.

Lemma pointer_to_Const_field_panics_witness :
  ∃ c', constFields (CD:=Mini.codec) (Some (TPointer WithPointer)) []
        = (Panic (PanicRuntime NilDereference), c').
Proof.
  eapply (pointer_to_Const_field_panics (CD:=Mini.codec) (TPointer WithPointer)
            [] [Examples.field "Kind" [] Examples.ConstBar]
            (Examples.field "Type" [] (TPointer Examples.ConstFoo)) []).
  - apply cache_ok_nil.
  - reflexivity.
  - reflexivity.
  - repeat (constructor; [reflexivity|]). constructor.
  - refine (bool_decide_unpack _ _). vm_compute. exact I.
  - reflexivity.
  - reflexivity.
  - refine (bool_decide_unpack _ _). vm_compute. exact I.
Defined.

(** The small codec uses up input. *)
Section MiniProgress.
Import Mini.

Lemma skip_sep_length s : (String.length (skip_sep s) ≤ String.length s)%nat.
Proof.
  induction s as [|c s IH]; simpl; [done|]. destruct (is_sep c); simpl; lia.
Qed.

Lemma span_string_length s body after :
  span_string s = Some (body, after) →
  (String.length after < String.length s)%nat.
Proof.
  revert body. induction s as [|c s IH]; intros body; simpl; [done|].
  case_decide.
  - intros [= <- <-]. lia.
  - destruct (span_string s) as [[b a]|]; simpl; [|done].
    intros [= <- <-]. specialize (IH _ eq_refl). lia.
Qed.

Lemma span_digits_length s :
  (String.length (span_digits s).2 ≤ String.length s)%nat.
Proof.
  induction s as [|c s IH]; simpl; [done|].
  destruct (is_digit c); simpl; [|lia].
  destruct (span_digits s) as [ds after]. simpl in *. lia.
Qed.

Lemma drop_chars_length n s :
  (String.length (drop_chars n s) ≤ String.length s)%nat.
Proof.
  revert s. induction n as [|n IH]; intros [|c s]; simpl; try lia.
  specialize (IH s). lia.
Qed.

Lemma read_token_length s tok rest :
  read_token s = Some (tok, rest) →
  (String.length rest < String.length s)%nat.
Proof.
  unfold read_token. pose proof (skip_sep_length s) as Hs.
  destruct (skip_sep s) as [|c r]; [done|]. simpl in Hs.
  case_decide.
  { destruct (span_string r) as [[b a]|] eqn:E; simpl; [|done].
    intros [= <- <-]. apply span_string_length in E. lia. }
  repeat (case_decide; [intros [= <- <-]; lia|]).
  destruct (is_digit c).
  { pose proof (span_digits_length r) as Hd.
    destruct (span_digits r) as [ds a]. intros [= <- <-]. simpl in Hd. lia. }
  pose proof (drop_chars_length 3 r). pose proof (drop_chars_length 4 r).
  destruct (String.prefix "true" _).
  { intros Heq. assert (rest = drop_chars 3 r) as -> by congruence. lia. }
  destruct (String.prefix "false" _).
  { intros Heq. assert (rest = drop_chars 4 r) as -> by congruence. lia. }
  destruct (String.prefix "null" _); [|done].
  intros Heq. assert (rest = drop_chars 3 r) as -> by congruence. lia.
Qed.

Lemma skip_value_length fuel depth s rest :
  skip_value fuel depth s = Some rest →
  (String.length rest < String.length s)%nat.
Proof.
  revert depth s. induction fuel as [|fuel IH]; intros depth s; [done|].
  simpl. destruct (read_token s) as [[tok r]|] eqn:E; simpl; [|done].
  apply read_token_length in E. intros Hsk.
  assert (∀ k, skip_value fuel k r = Some rest →
               (String.length rest < String.length s)%nat) as Hrec.
  { intros k Hk. apply IH in Hk. lia. }
  destruct tok; try (by apply Hrec in Hsk);
    try (case_decide; [injection Hsk as <-; lia|by apply Hrec in Hsk]);
    destruct depth as [|[|depth]]; try done;
    try (injection Hsk as <-; lia); by apply Hrec in Hsk.
Qed.

Lemma read_value_length s raw rest :
  read_value s = Some (raw, rest) →
  (String.length rest ≤ String.length s)%nat.
Proof.
  unfold read_value. pose proof (skip_sep_length s) as Hs.
  destruct (skip_value _ 0 (skip_sep s)) as [r|] eqn:E; simpl; [|done].
  intros [= _ <-]. apply skip_value_length in E. lia.
Qed.
End MiniProgress.

Lemma fieldValue_returns_witness :
  ∃ r, fieldValue (CD:=Mini.codec)
         (Examples.obj [("Bark", Mini.quoted "woof")]) "Type" = Ok r.
Proof.
  apply (fieldValue_returns (CD:=Mini.codec) String.length).
  - intros d tok d'. simpl.
    destruct (Mini.read_token d) as [[t r]|] eqn:E; [|done].
    intros [= <- <-]. by eapply read_token_length.
  - intros d d'. simpl.
    destruct (Mini.read_value d) as [[raw r]|] eqn:E; [|done].
    intros [= <-]. by eapply read_value_length.
  - simpl. lia.
Defined.

Lemma jsonFieldName_resolution_witness :
  jsonFieldName
    (Examples.field "Title" [("json", "title,omitempty")] (TBasic t_string))
  = "title".
Proof.
  destruct (jsonFieldName_resolution
              (Examples.field "Title" [("json", "title,omitempty")]
                 (TBasic t_string)))
    as (_ & _ & _ & _ & H & _).
  apply (H "title" "omitempty"); [reflexivity| |discriminate].
  vm_compute. repeat split; discriminate.
Defined.

Lemma lookupJSONField_first_witness :
  ∃ found, lookupJSONField Examples.Book "title" = LookupType found.
Proof.
  destruct (lookupJSONField_first Examples.Book "title") as [_ H].
  destruct (H eq_refl) as (found & Hl & _). by exists found.
Defined.

Lemma Value_terminates_witness :
  (Value_rec (CD:=Mini.codec) 1 t_string (Examples.constS t_string "foo") []).1
  = OutOfFuel.
Proof.
  destruct (Value_terminates (CD:=Mini.codec) 0 t_string
              (Examples.constS t_string "foo") []) as (_ & _ & H).
  eapply H; reflexivity.
Defined.
